(** * pd-client: a shallow embedding of [pd-client/client.go]

    The Go client of the placement driver is modelled as state-passing
    functions over an explicit world: the [client] struct, the heap of
    [tsoRequest] objects the queue points into, a counter of remote
    interactions (the index under which the network answers), and the log of
    what the batcher did.  Channels are bounded buffers whose send blocks
    when full; goroutines other than the one being modelled act through an
    interference schedule applied between the atomic steps. *)

From stdpp Require Import gmap strings list.
From Stdlib Require Import ZArith Lia.

Local Open Scope Z_scope.

(** ** Go runtime primitives *)

Module Go.

(** [int64] arithmetic wraps around. *)
Definition wrap64 (z : Z) : Z := (z + 2 ^ 63) mod 2 ^ 64 - 2 ^ 63.

Definition MinInt64 : Z := - 2 ^ 63.
Definition MaxInt64 : Z := 2 ^ 63 - 1.

(** The conversion [uint32(n)] of an [int]. *)
Definition uint32 (z : Z) : Z := z mod 2 ^ 32.

(** [strings.HasPrefix] and [strings.Contains]. *)
Fixpoint HasPrefix (s prefix : string) : bool :=
  match prefix, s with
  | EmptyString, _ => true
  | String _ _, EmptyString => false
  | String a p, String b s' =>
      if Ascii.eqb a b then HasPrefix s' p else false
  end.

Fixpoint Contains (s substr : string) : bool :=
  HasPrefix s substr ||
  match s with
  | EmptyString => false
  | String _ s' => Contains s' substr
  end.

(** A buffered channel: the queued values, oldest first, and the capacity
    given to [make]. *)
Record chan (A : Type) := mkChan { buf : list A; cap : nat }.
Arguments mkChan {A} _ _.
Arguments buf {A} _.
Arguments cap {A} _.

Definition make {A : Type} (n : nat) : chan A := mkChan [] n.

Definition len {A : Type} (c : chan A) : nat := length (buf c).

(** [c <- v]: [None] when the buffer is full, the sender would block. *)
Definition send {A : Type} (c : chan A) (v : A) : option (chan A) :=
  if decide (length (buf c) < cap c)%nat
  then Some (mkChan (buf c ++ [v]) (cap c))
  else None.

(** [<-c]: [None] when the buffer is empty, the receiver would block. *)
Definition recv {A : Type} (c : chan A) : option (A * chan A) :=
  match buf c with
  | [] => None
  | v :: rest => Some (v, mkChan rest (cap c))
  end.

End Go.

Import Go.

(** ** Address normalization *)

(** [addrsToUrls]: the loop appends one element per address to [urls]. *)
Definition addrsToUrls (addrs : list string) : list string :=
  fold_left
    (fun urls addr =>
       if Contains addr "://"
       then urls ++ [addr]
       else urls ++ ["http://" +:+ addr])
    addrs [].

(** ** Errors *)

(** Errors are values: [New] and [Errorf] are the constructors of
    [juju/errors], [External] is an error made outside this package
    (transport, dialing, an expired context), and [Trace] is what
    [errors.Trace] wraps around a non-nil error. *)
Inductive error : Type :=
  | New (msg : string)
  | Errorf (format : string) (args : list string)
  | External (msg : string)
  | Trace (e : error).

Definition errFailInitClusterID : error := New "[pd] failed to get cluster id".
Definition errClosing : error := New "[pd] closing".
Definition errTSOLength : error :=
  New "[pd] tso length in rpc response is incorrect".

Abbreviation Result A := (error + A)%type.

(** ** Constants *)

Definition maxMergeTSORequests : nat := 10000.
Definition maxInitClusterRetries : nat := 100.

(** ** Data model *)

Abbreviation ptr := nat (only parsing).

(** [tsoRequest]: [done] carries an [error] that may be nil. *)
Record tsoRequest := mkReq {
  done : chan (option error);
  physical : Z;
  logical : Z;
}.

(** Messages of the wire protocol, with the nil-safe getters that the
    generated code provides. *)
Record Timestamp := mkTimestamp { Physical : Z; Logical : Z }.
Record TsoRequest := mkTsoRequest { ClusterId : Z; Count : Z }.
Record TsoResponse := mkTsoResponse { RespCount : Z; RespTimestamp : option Timestamp }.

Definition GetCount (resp : TsoResponse) : Z := RespCount resp.
Definition GetTimestamp (resp : TsoResponse) : option Timestamp := RespTimestamp resp.
Definition GetPhysical (ts : option Timestamp) : Z :=
  match ts with Some t => Physical t | None => 0 end.
Definition GetLogical (ts : option Timestamp) : Z :=
  match ts with Some t => Logical t | None => 0 end.

Inductive StoreState := StoreState_Up | StoreState_Offline | StoreState_Tombstone.

Record Store := mkStore { StoreId : Z; StoreAddress : string; State : StoreState }.
Record GetStoreResponse := mkGetStoreResponse { RespStore : option Store }.

Definition GetStore_field (resp : GetStoreResponse) : option Store := RespStore resp.
Definition GetState (s : Store) : StoreState := State s.

Definition is_tombstone (st : StoreState) : bool :=
  match st with StoreState_Tombstone => true | _ => false end.

(** Handles: the HTTP client of [apiutil] and the gRPC client built on a
    dialed connection. *)
Record ApiClient := mkApiClient { api_url : string }.
Inductive PDClient := NewPDClient (cc : nat).

(** The [client] struct.  [quit] is closed or not; [wg] is the counter of
    the wait group. *)
Record client := mkClient {
  urls : list string;
  clusterID : Z;
  tsoRequests : chan ptr;
  clients : gmap string PDClient;
  leader : string;
  checkLeaderCh : chan unit;
  wg : nat;
  quit : bool;
}.

(** What the program did, as far as the claims look at it. *)
Inductive event :=
  | EvTso (to : PDClient) (req : TsoRequest)
  | EvDone (req : ptr) (phys logi : Z) (err : option error)
  | EvSleep (seconds : nat).

(** The world: the client, the heap of requests, the allocation pointer, a
    logical clock that ticks at every interaction with the outside, and the
    log. *)
Record world := mkWorld {
  cli : client;
  heap : gmap nat tsoRequest;
  nextp : ptr;
  now : nat;
  trace : list event;
}.

(** What other goroutines do between two atomic steps of the modelled one:
    a caller of [GetTS] creating and queueing its request, the owner of a
    request reading its completion slot, a failed lookup scheduling a leader
    check, the leader loop waking on the signal or on its timer, and
    [Close] closing [quit]. *)
Inductive env_action :=
  | AEnqueue
  | AReceive (req : ptr)
  | ASchedule
  | ALeaderSignal
  | ALeaderTimer
  | ACloseQuit.

(** The outside of the program, indexed by the logical clock: what each
    remote call answers, which ready case a [select] picks, whether the
    timer of the leader loop has fired, and what the other goroutines do. *)
Record Env := mkEnv {
  apiutil_NewClient : nat -> string -> Result ApiClient;
  api_GetClusterID : nat -> ApiClient -> Result Z;
  api_GetLeader : nat -> ApiClient -> Result string;
  grpc_Dial : nat -> string -> Result nat;
  pd_Tso : nat -> PDClient -> TsoRequest -> Result TsoResponse;
  pd_GetStore : nat -> PDClient -> Z -> Result GetStoreResponse;
  select_pick : nat -> nat;
  timer_fires : nat -> bool;
  interference : nat -> list env_action;
}.

(** ** The monad: state, blocking and panics *)

Inductive outcome (A : Type) :=
  | Ret (a : A) (w : world)
  | Block
  | Panic.
Arguments Ret {A} _ _.
Arguments Block {A}.
Arguments Panic {A}.

Definition M (A : Type) : Type := world -> outcome A.

Definition ret {A : Type} (a : A) : M A := fun w => Ret a w.

Definition bind {A B : Type} (m : M A) (k : A -> M B) : M B :=
  fun w => match m w with
           | Ret a w' => k a w'
           | Block => Block
           | Panic => Panic
           end.

Notation "'let*' x ':=' m 'in' k" := (bind m (fun x => k))
  (at level 20, x name, m at level 100, k at level 200).
Notation "m1 '>>' m2" := (bind m1 (fun _ => m2))
  (at level 64, right associativity).

Definition get : M world := fun w => Ret w w.
Definition modify (f : world -> world) : M unit := fun w => Ret tt (f w).
Definition block {A : Type} : M A := fun _ => Block.
Definition panic {A : Type} : M A := fun _ => Panic.

(** The world after [m], unchanged when [m] does not return. *)
Definition exec {A : Type} (m : M A) (w : world) : world :=
  match m w with Ret _ w' => w' | _ => w end.

(** ** Field updates *)

Definition with_cli (f : client -> client) (w : world) : world :=
  mkWorld (f (cli w)) (heap w) (nextp w) (now w) (trace w).
Definition with_heap (h : gmap nat tsoRequest) (w : world) : world :=
  mkWorld (cli w) h (nextp w) (now w) (trace w).
Definition with_nextp (n : ptr) (w : world) : world :=
  mkWorld (cli w) (heap w) n (now w) (trace w).
Definition tick (w : world) : world :=
  mkWorld (cli w) (heap w) (nextp w) (S (now w)) (trace w).
Definition log (e : event) (w : world) : world :=
  mkWorld (cli w) (heap w) (nextp w) (now w) (trace w ++ [e]).

Definition set_clusterID (id : Z) (c : client) : client :=
  mkClient (urls c) id (tsoRequests c) (clients c) (leader c)
           (checkLeaderCh c) (wg c) (quit c).
Definition set_tsoRequests (q : chan ptr) (c : client) : client :=
  mkClient (urls c) (clusterID c) q (clients c) (leader c)
           (checkLeaderCh c) (wg c) (quit c).
Definition set_clients (m : gmap string PDClient) (c : client) : client :=
  mkClient (urls c) (clusterID c) (tsoRequests c) m (leader c)
           (checkLeaderCh c) (wg c) (quit c).
Definition set_leader (l : string) (c : client) : client :=
  mkClient (urls c) (clusterID c) (tsoRequests c) (clients c) l
           (checkLeaderCh c) (wg c) (quit c).
Definition set_checkLeaderCh (ch : chan unit) (c : client) : client :=
  mkClient (urls c) (clusterID c) (tsoRequests c) (clients c) (leader c)
           ch (wg c) (quit c).
Definition set_wg (n : nat) (c : client) : client :=
  mkClient (urls c) (clusterID c) (tsoRequests c) (clients c) (leader c)
           (checkLeaderCh c) n (quit c).
Definition set_quit (b : bool) (c : client) : client :=
  mkClient (urls c) (clusterID c) (tsoRequests c) (clients c) (leader c)
           (checkLeaderCh c) (wg c) b.
Definition set_done (ch : chan (option error)) (r : tsoRequest) : tsoRequest :=
  mkReq ch (physical r) (logical r).

(** The ready cases of a [select], by index. *)
Fixpoint ready_from (i : nat) (ready : list bool) : list nat :=
  match ready with
  | [] => []
  | b :: rest => (if b then [i] else []) ++ ready_from (S i) rest
  end.

Definition nonempty {A : Type} (l : list A) : bool :=
  match l with [] => false | _ :: _ => true end.

Definition is_caller (a : env_action) : bool :=
  match a with AEnqueue | AReceive _ | ASchedule => true | _ => false end.

Definition not_leader (a : env_action) : bool :=
  match a with ALeaderSignal | ALeaderTimer => false | _ => true end.

Definition anyone (a : env_action) : bool := true.

Inductive loop_status := Running | Returned.

(** ** The client *)

Section Model.

Variable env : Env.

(** *** Channels and handles of the client *)

Definition len_tsoRequests : M nat :=
  fun w => Ret (len (tsoRequests (cli w))) w.

Definition recv_tsoRequests : M ptr :=
  fun w => match recv (tsoRequests (cli w)) with
           | Some (p, q) => Ret p (with_cli (set_tsoRequests q) w)
           | None => Block
           end.

Definition send_tsoRequests (p : ptr) : M unit :=
  fun w => match send (tsoRequests (cli w)) p with
           | Some q => Ret tt (with_cli (set_tsoRequests q) w)
           | None => Block
           end.

Definition recv_checkLeaderCh : M unit :=
  fun w => match recv (checkLeaderCh (cli w)) with
           | Some (_, ch) => Ret tt (with_cli (set_checkLeaderCh ch) w)
           | None => Block
           end.

(** [select] among cases whose readiness is given: the index of the case
    taken, chosen by the scheduler among the ready ones; [None] when no
    case is ready and the goroutine stays parked. *)
Definition select (ready : list bool) : M (option nat) :=
  fun w => match ready_from 0 ready with
           | [] => Ret None w
           | rs => Ret (rs !! (select_pick env (now w) `mod` length rs)%nat)
                       (tick w)
           end.

(** [wg.Done]: a negative counter panics. *)
Definition wg_Done : M unit :=
  fun w => match wg (cli w) with
           | O => Panic
           | S n => Ret tt (with_cli (set_wg n) w)
           end.

(** [wg.Wait] returns once the counter is zero. *)
Definition wg_Wait : M unit :=
  fun w => match wg (cli w) with
           | O => Ret tt w
           | S _ => Block
           end.

(** [close(c.quit)]: closing a closed channel panics. *)
Definition close_quit : M unit :=
  fun w => if quit (cli w) then Panic
           else Ret tt (with_cli (set_quit true) w).

(** [scheduleCheckLeader]: a [select] with a [default] case. *)
Definition scheduleCheckLeader : M unit :=
  fun w => match send (checkLeaderCh (cli w)) tt with
           | Some ch => Ret tt (with_cli (set_checkLeaderCh ch) w)
           | None => Ret tt w
           end.

(** [leaderClient]: the map lookup yields nil for a missing key. *)
Definition leaderClient : M (option PDClient) :=
  fun w => Ret (clients (cli w) !! leader (cli w)) w.

(** A method call on the handle; on a nil interface it panics. *)
Definition call_Tso (cl : option PDClient) (req : TsoRequest)
  : M (Result TsoResponse) :=
  fun w => match cl with
           | None => Panic
           | Some h => Ret (pd_Tso env (now w) h req)
                           (tick (log (EvTso h req) w))
           end.

Definition call_GetStore (cl : option PDClient) (storeID : Z)
  : M (Result GetStoreResponse) :=
  fun w => match cl with
           | None => Panic
           | Some h => Ret (pd_GetStore env (now w) h storeID) (tick w)
           end.

(** *** Cluster id *)

(** One pass of [initClusterID] over the addresses: [true] when an
    address answered and the id was stored. *)
Fixpoint initClusterID_pass (us : list string) : M bool :=
  match us with
  | [] => ret false
  | u :: rest =>
      fun w =>
        match apiutil_NewClient env (now w) u with
        | inl _ => initClusterID_pass rest (tick w)
        | inr client =>
            match api_GetClusterID env (now w) client with
            | inl _ => initClusterID_pass rest (tick w)
            | inr id => Ret true (tick (with_cli (set_clusterID id) w))
            end
        end
  end.

Fixpoint initClusterID_retry (n : nat) : M (option error) :=
  match n with
  | O => ret (Some (Trace errFailInitClusterID))
  | S n' =>
      let* found := (fun w => initClusterID_pass (urls (cli w)) w) in
      if (found : bool) then ret None
      else modify (log (EvSleep 1)) >> initClusterID_retry n'
  end.

Definition initClusterID : M (option error) :=
  initClusterID_retry maxInitClusterRetries.

(** *** Leader *)

Definition switchLeader (addr : string) : M (option error) :=
  fun w =>
    match clients (cli w) !! addr with
    | Some _ => Ret None (with_cli (set_leader addr) w)
    | None =>
        match grpc_Dial env (now w) addr with
        | inl err => Ret (Some (Trace err)) (tick w)
        | inr cc =>
            Ret None
                (tick (with_cli
                         (fun c => set_leader addr
                                     (set_clients
                                        (<[addr := NewPDClient cc]> (clients c)) c))
                         w))
        end
    end.

Fixpoint updateLeader_from (us : list string) : M (option error) :=
  match us with
  | [] =>
      fun w => Ret (Some (Errorf "failed to get leader from %v" (urls (cli w)))) w
  | u :: rest =>
      fun w =>
        match apiutil_NewClient env (now w) u with
        | inl _ => updateLeader_from rest (tick w)
        | inr client =>
            match api_GetLeader env (now w) client with
            | inl _ => updateLeader_from rest (tick w)
            | inr addr =>
                if decide (leader (cli w) = addr) then Ret None (tick w)
                else match switchLeader addr (tick w) with
                     | Ret (Some err) w' => Ret (Some (Trace err)) w'
                     | other => other
                     end
            end
        end
  end.

Definition updateLeader : M (option error) :=
  fun w => updateLeader_from (urls (cli w)) w.

(** *** Construction *)

Definition new_client (pdAddrs : list string) : client :=
  mkClient (addrsToUrls pdAddrs) 0 (make maxMergeTSORequests) ∅ ""
           (make 1) 0 false.

(** [NewClient]: the error, or the client with its two loops started
    ([wg.Add(2)]). *)
Definition NewClient (pdAddrs : list string) : M (Result client) :=
  let* _ := modify (with_cli (fun _ => new_client pdAddrs)) in
  let* err := initClusterID in
  match err with
  | Some e => ret (inl (Trace e))
  | None =>
      let* err := updateLeader in
      match err with
      | Some e => ret (inl (Trace e))
      | None =>
          let* _ := modify (with_cli (fun c => set_wg (wg c + 2) c)) in
          let* w := get in
          ret (inr (cli w))
      end
  end.

(** *** The caller's side of [GetTS] *)

(** [req := &tsoRequest{done: make(chan error, 1)}] *)
Definition new_tsoRequest : M ptr :=
  fun w => let p := nextp w in
           Ret p (with_nextp (S p)
                    (with_heap (<[p := mkReq (make 1) 0 0]> (heap w)) w)).

(** Creation and [c.tsoRequests <- req]. *)
Definition GetTS_enqueue : M ptr :=
  let* req := new_tsoRequest in
  let* _ := send_tsoRequests req in
  ret req.

Definition recv_done (req : ptr) : M (option error) :=
  fun w => match heap w !! req with
           | None => Panic
           | Some r =>
               match recv (done r) with
               | None => Block
               | Some (e, ch) =>
                   Ret e (with_heap (<[req := set_done ch r]> (heap w)) w)
               end
           end.

Definition load (req : ptr) : M tsoRequest :=
  fun w => match heap w !! req with
           | None => Panic
           | Some r => Ret r w
           end.

(** The case [err := <-req.done] of the [select] in [GetTS]. *)
Definition GetTS_receive (req : ptr) : M (Z * Z * option error) :=
  let* err := recv_done req in
  match err with
  | Some e => scheduleCheckLeader >> ret (0, 0, Some (Trace e))
  | None => let* r := load req in ret (physical r, logical r, None)
  end.

(** The [select] of [GetTS]; [ctxErr] is [ctx.Err()] once the context is
    done. *)
Definition GetTS_wait (req : ptr) (ctxErr : option error)
  : M (Z * Z * option error) :=
  let* r := load req in
  let* c := select [nonempty (buf (done r)); bool_decide (is_Some ctxErr)] in
  match c, ctxErr with
  | Some O, _ => GetTS_receive req
  | Some _, Some e => ret (0, 0, Some (Trace e))
  | _, _ => block
  end.

(** *** The other goroutines *)

Definition env_step (a : env_action) : world -> world :=
  match a with
  | AEnqueue => exec GetTS_enqueue
  | AReceive req => exec (GetTS_receive req)
  | ASchedule => exec scheduleCheckLeader
  | ALeaderSignal => exec (recv_checkLeaderCh >> updateLeader)
  | ALeaderTimer => exec updateLeader
  | ACloseQuit => with_cli (set_quit true)
  end.

Definition interfere (acts : list env_action) (w : world) : world :=
  fold_left (fun w a => env_step a w) acts w.

(** Between two atomic steps the clock ticks and the goroutines allowed
    to run at this point act. *)
Definition yield (allowed : env_action -> bool) : M unit :=
  fun w => Ret tt (interfere (List.filter allowed (interference env (now w)))
                             (tick w)).

(** *** The batcher *)

Definition store_fields (req : ptr) (phys logi : Z) : M unit :=
  fun w => match heap w !! req with
           | None => Panic
           | Some r =>
               Ret tt (with_heap (<[req := mkReq (done r) phys logi]> (heap w)) w)
           end.

(** [req.done <- err]: blocks while the slot is full. *)
Definition send_done (req : ptr) (err : option error) : M unit :=
  fun w => match heap w !! req with
           | None => Panic
           | Some r =>
               match send (done r) err with
               | None => Block
               | Some ch =>
                   Ret tt (log (EvDone req (physical r) (logical r) err)
                             (with_heap (<[req := set_done ch r]> (heap w)) w))
               end
           end.

Definition finishTSORequest (req : ptr) (phys logi : Z) (err : option error)
  : M unit :=
  store_fields req phys logi >> send_done req err.

(** The loop of the error path: [pendingCount] further requests are taken
    from the queue and finished with the error. *)
Fixpoint failPending (n : nat) (err : error) : M unit :=
  match n with
  | O => ret tt
  | S n' =>
      let* _ := yield anyone in
      let* req := recv_tsoRequests in
      let* _ := yield anyone in
      let* _ := finishTSORequest req 0 0 (Some (Trace err)) in
      failPending n' err
  end.

(** The loop of the success path: [logical--] before each request. *)
Fixpoint assignPending (n : nat) (phys logi : Z) : M unit :=
  match n with
  | O => ret tt
  | S n' =>
      let logi' := wrap64 (logi - 1) in
      let* _ := yield anyone in
      let* req := recv_tsoRequests in
      let* _ := yield anyone in
      let* _ := finishTSORequest req phys logi' None in
      assignPending n' phys logi'
  end.

Definition failBatch (first : ptr) (pendingCount : nat) (err : error) : M unit :=
  finishTSORequest first 0 0 (Some (Trace err)) >>
  failPending pendingCount err.

Definition processTSORequests (first : ptr) : M unit :=
  let* pendingCount := len_tsoRequests in
  let* _ := yield anyone in
  let* cl := leaderClient in
  let* c := get in
  let* r := call_Tso cl (mkTsoRequest (clusterID (cli c))
                           (uint32 (Z.of_nat pendingCount + 1))) in
  let* _ := yield anyone in
  match r with
  | inl err => failBatch first pendingCount err
  | inr resp =>
      if decide (GetCount resp = uint32 (Z.of_nat pendingCount + 1))
      then
        let phys := GetPhysical (GetTimestamp resp) in
        let logi := GetLogical (GetTimestamp resp) in
        finishTSORequest first phys logi None >>
        assignPending pendingCount phys logi
      else failBatch first pendingCount errTSOLength
  end.

Fixpoint tsLoop (fuel : nat) : M loop_status :=
  match fuel with
  | O => ret Running
  | S fuel' =>
      let* _ := yield anyone in
      let* w := get in
      let* c := select [nonempty (buf (tsoRequests (cli w))); quit (cli w)] in
      match c with
      | Some O =>
          let* first := recv_tsoRequests in
          let* _ := yield anyone in
          processTSORequests first >> tsLoop fuel'
      | Some _ => wg_Done >> ret Returned
      | None => tsLoop fuel'
      end
  end.

(** [time.After(time.Minute)]: whether the timer has fired by now. *)
Definition timer : M bool :=
  fun w => Ret (timer_fires env (now w)) (tick w).

Fixpoint leaderLoop (fuel : nat) : M loop_status :=
  match fuel with
  | O => ret Running
  | S fuel' =>
      let* _ := yield not_leader in
      let* fired := timer in
      let* w := get in
      let* c := select [nonempty (buf (checkLeaderCh (cli w))); fired;
                        quit (cli w)] in
      match c with
      | Some O => recv_checkLeaderCh >> updateLeader >> leaderLoop fuel'
      | Some 1%nat => updateLeader >> leaderLoop fuel'
      | Some _ => wg_Done >> ret Returned
      | None => leaderLoop fuel'
      end
  end.

(** *** Shutdown *)

(** The loop at the end of [Close]. *)
Fixpoint Close_drain (n : nat) : M unit :=
  match n with
  | O => ret tt
  | S n' =>
      let* _ := yield is_caller in
      let* req := recv_tsoRequests in
      let* _ := yield is_caller in
      let* _ := send_done req (Some (Trace errClosing)) in
      Close_drain n'
  end.

(** [Close]: while it waits in [wg.Wait] the two loops run until they
    return; the fuels bound how long that may take. *)
Definition Close (fuel_ts fuel_leader : nat) : M unit :=
  close_quit >>
  tsLoop fuel_ts >> leaderLoop fuel_leader >> wg_Wait >>
  (let* n := len_tsoRequests in Close_drain n).

(** *** Lookups *)

Definition GetStore (storeID : Z) : M (option Store * option error) :=
  let* cl := leaderClient in
  let* r := call_GetStore cl storeID in
  match r with
  | inl err => scheduleCheckLeader >> ret (None, Some (Trace err))
  | inr resp =>
      match GetStore_field resp with
      | None => ret (None, Some (New "[pd] store field in rpc response not set"))
      | Some store =>
          if is_tombstone (GetState store) then ret (None, None)
          else ret (Some store, None)
      end
  end.

End Model.

(** ** Vocabulary of the statements *)

(** [sub] occurs in [s]. *)
Definition occurs_in (sub s : string) : Prop :=
  exists pre post : string, s = pre +:+ sub +:+ post.

(** The world after [n] ticks of the clock. *)
Definition ticks (n : nat) (w : world) : world :=
  mkWorld (cli w) (heap w) (nextp w) (now w + n) (trace w).

(** What asking address [u] for the cluster id gives at time [t]. *)
Definition answers_id (env : Env) (t : nat) (u : string) : option Z :=
  match apiutil_NewClient env t u with
  | inl _ => None
  | inr client =>
      match api_GetClusterID env t client with
      | inl _ => None
      | inr id => Some id
      end
  end.


(** A request as [GetTS] creates it: an empty completion slot of capacity
    one, no timestamp yet. *)
Definition fresh_req (r : tsoRequest) : Prop :=
  done r = make 1 /\ physical r = 0 /\ logical r = 0.

(** The queue of a world, oldest request first. *)
Definition queue (w : world) : list nat := buf (tsoRequests (cli w)).

(** The requests nobody has completed yet: those a goroutine has taken from
    the queue and holds ([held]), and those in the queue. *)
Definition pending (held : list nat) (w : world) : list nat := held ++ queue w.

(** The requests completed in a log, in order, and the remote timestamp
    calls made in it. *)
Definition done_of (e : event) : option nat :=
  match e with EvDone p _ _ _ => Some p | _ => None end.

Definition tso_of (e : event) : option (PDClient * TsoRequest) :=
  match e with EvTso h req => Some (h, req) | _ => None end.

Definition completed (tr : list event) : list nat := omap done_of tr.

Definition tso_calls (tr : list event) : list (PDClient * TsoRequest) :=
  omap tso_of tr.

(** The invariant of the client.  The queue is the bounded channel that
    [NewClient] made; every pending request is a distinct, allocated object
    that is still fresh; a request that has been completed is no longer
    pending and has been completed once; the current leader has a handle;
    the signal slot has capacity one. *)
Record inv (held : list nat) (w : world) : Prop := mkInv {
  inv_cap : cap (tsoRequests (cli w)) = maxMergeTSORequests;
  inv_len : (length (queue w) <= maxMergeTSORequests)%nat;
  inv_nodup : NoDup (pending held w);
  inv_fresh : forall p, p ∈ pending held w ->
      (p < nextp w)%nat /\ exists r, heap w !! p = Some r /\ fresh_req r;
  inv_done : forall p, p ∈ completed (trace w) ->
      (p < nextp w)%nat /\ p ∉ pending held w;
  inv_once : NoDup (completed (trace w));
  inv_leader : is_Some (clients (cli w) !! leader (cli w));
  inv_slot : cap (checkLeaderCh (cli w)) = 1%nat /\
             (length (buf (checkLeaderCh (cli w))) <= 1)%nat;
}.

(** The signal slot alone. *)
Definition slot_ok (w : world) : Prop :=
  cap (checkLeaderCh (cli w)) = 1%nat /\
  (length (buf (checkLeaderCh (cli w))) <= 1)%nat.

(** What the other goroutines may have changed, as far as the batcher can
    tell: they log nothing of the batcher's, only append newly created
    requests to the queue, and leave the cluster id, [wg] and a closed
    [quit] alone. *)
Record rely (w w' : world) : Prop := mkRely {
  rely_trace : trace w' = trace w;
  rely_queue : exists arrived,
      queue w' = queue w ++ arrived /\
      Forall (fun p => (nextp w <= p)%nat) arrived;
  rely_nextp : (nextp w <= nextp w')%nat;
  rely_now : (now w <= now w')%nat;
  rely_clusterID : clusterID (cli w') = clusterID (cli w);
  rely_wg : wg (cli w') = wg (cli w);
  rely_quit : quit (cli w) = true -> quit (cli w') = true;
}.

(** The changes [updateLeader] can make: the handles, the leader and the
    clock. *)
Definition leader_update (w w' : world) : Prop :=
  exists cs l n,
    w' = mkWorld (mkClient (urls (cli w)) (clusterID (cli w))
                    (tsoRequests (cli w)) cs l (checkLeaderCh (cli w))
                    (wg (cli w)) (quit (cli w)))
           (heap w) (nextp w) (now w + n) (trace w) /\
    (is_Some (clients (cli w) !! leader (cli w)) -> is_Some (cs !! l)).

(** What stays put while the batcher itself works. *)
Record progress (w w' : world) : Prop := mkProgress {
  progress_nextp : (nextp w <= nextp w')%nat;
  progress_now : (now w <= now w')%nat;
  progress_clusterID : clusterID (cli w') = clusterID (cli w);
  progress_wg : wg (cli w') = wg (cli w);
  progress_quit : quit (cli w) = true -> quit (cli w') = true;
}.

(** The completions logged by the loop of the success path for the
    requests [qs], the last logical value handed out being [logi]. *)
Fixpoint assigned (phys logi : Z) (qs : list nat) : list event :=
  match qs with
  | [] => []
  | q :: qs' =>
      EvDone q phys (wrap64 (logi - 1)) None
        :: assigned phys (wrap64 (logi - 1)) qs'
  end.

(** The completions logged when every request of [qs] is failed with
    [err]. *)
Definition failed (err : error) (qs : list nat) : list event :=
  map (fun q => EvDone q 0 0 (Some (Trace err))) qs.

(** A value of type [int64]. *)
Definition in_int64 (z : Z) : Prop := MinInt64 <= z <= MaxInt64.

(** What [processTSORequests] logs for the answer [r] of the remote call:
    the batch is [first] and the requests [qs] that were queued at the
    snapshot. *)
Definition batch_log (r : Result TsoResponse) (first : nat) (qs : list nat)
  : list event :=
  match r with
  | inl err => failed err (first :: qs)
  | inr resp =>
      if decide (GetCount resp = Z.of_nat (length qs) + 1)
      then EvDone first (GetPhysical (GetTimestamp resp))
                  (GetLogical (GetTimestamp resp)) None
             :: assigned (GetPhysical (GetTimestamp resp))
                         (GetLogical (GetTimestamp resp)) qs
      else failed errTSOLength (first :: qs)
  end.

(** The world after [i] passes of [initClusterID] in which no address
    answered: each pass asked every address once and slept a second. *)
Definition after_passes (i : nat) (w : world) : world :=
  mkWorld (cli w) (heap w) (nextp w)
          (now w + i * length (urls (cli w)))
          (trace w ++ replicate i (EvSleep 1)).

(** ** Concrete inputs *)

(** An outside in which every address answers, the cluster id is 42, the
    leader is the first address, dialing succeeds, the timestamp server
    answers the count asked for with the timestamp [(100, 9)], store
    lookups find a tombstone, and no other goroutine runs. *)
Definition env_ok : Env :=
  mkEnv (fun _ u => inr (mkApiClient u))
        (fun _ _ => inr 42)
        (fun _ _ => inr "http://pd1:2379")
        (fun _ _ => inr 7%nat)
        (fun _ _ req => inr (mkTsoResponse (Count req) (Some (mkTimestamp 100 9))))
        (fun _ _ id => inr (mkGetStoreResponse
                              (Some (mkStore id "tikv1:20160" StoreState_Tombstone))))
        (fun _ => 0%nat)
        (fun _ => false)
        (fun _ => []).

Definition with_GetClusterID (f : nat -> ApiClient -> Result Z) (e : Env) : Env :=
  mkEnv (apiutil_NewClient e) f (api_GetLeader e) (grpc_Dial e) (pd_Tso e)
        (pd_GetStore e) (select_pick e) (timer_fires e) (interference e).
Definition with_GetLeader (f : nat -> ApiClient -> Result string) (e : Env) : Env :=
  mkEnv (apiutil_NewClient e) (api_GetClusterID e) f (grpc_Dial e) (pd_Tso e)
        (pd_GetStore e) (select_pick e) (timer_fires e) (interference e).
Definition with_Tso (f : nat -> PDClient -> TsoRequest -> Result TsoResponse)
    (e : Env) : Env :=
  mkEnv (apiutil_NewClient e) (api_GetClusterID e) (api_GetLeader e) (grpc_Dial e)
        f (pd_GetStore e) (select_pick e) (timer_fires e) (interference e).
Definition with_GetStore (f : nat -> PDClient -> Z -> Result GetStoreResponse)
    (e : Env) : Env :=
  mkEnv (apiutil_NewClient e) (api_GetClusterID e) (api_GetLeader e) (grpc_Dial e)
        (pd_Tso e) f (select_pick e) (timer_fires e) (interference e).
Definition with_pick (f : nat -> nat) (e : Env) : Env :=
  mkEnv (apiutil_NewClient e) (api_GetClusterID e) (api_GetLeader e) (grpc_Dial e)
        (pd_Tso e) (pd_GetStore e) f (timer_fires e) (interference e).
Definition with_interference (f : nat -> list env_action) (e : Env) : Env :=
  mkEnv (apiutil_NewClient e) (api_GetClusterID e) (api_GetLeader e) (grpc_Dial e)
        (pd_Tso e) (pd_GetStore e) (select_pick e) (timer_fires e) f.

(** Callers keep arriving: one new request at every yield. *)
Definition env_busy : Env := with_interference (fun _ => [AEnqueue]) env_ok.


(** The timestamp server answers with the least [int64] as logical value. *)
Definition env_wrap : Env :=
  with_Tso (fun _ _ req =>
              inr (mkTsoResponse (Count req) (Some (mkTimestamp 100 MinInt64))))
           env_ok.


(** Only the third address knows the cluster id. *)
Definition env_third : Env :=
  with_GetClusterID
    (fun _ c => if String.eqb (api_url c) "http://pd3:2379" then inr 42
                else inl (External "connection refused"))
    env_ok.

(** No address knows the cluster id. *)
Definition env_dead : Env :=
  with_GetClusterID (fun _ _ => inl (External "connection refused")) env_ok.

(** Store lookups come back without a store. *)
Definition env_nostore : Env :=
  with_GetStore (fun _ _ _ => inr (mkGetStoreResponse None)) env_ok.

(** Every [select] with more than one ready case takes the second. *)
Definition env_close : Env := with_pick (fun _ => 1%nat) env_ok.

Definition w_empty : world := mkWorld (new_client []) ∅ 0 0 [].

(** A client just built, before its first leader resolution. *)
Definition w_fresh : world :=
  with_cli (fun _ => new_client ["pd1:2379"]) w_empty.

(** A client as [NewClient] returns it. *)
Definition w_ready : world := exec (NewClient env_ok ["pd1:2379"]) w_empty.

(** Five callers have queued their requests; the batcher has taken the
    first. *)
Definition w_five : world := interfere env_ok (replicate 5 AEnqueue) w_ready.

(** The same with two callers. *)
Definition w_two : world := interfere env_ok (replicate 2 AEnqueue) w_ready.
Definition w_two_held : world := exec recv_tsoRequests w_two.


(** ** The rest of the client *)

(** [GetClusterID] reads the field; no remote call. *)
Definition GetClusterID : M Z := fun w => Ret (clusterID (cli w)) w.

(** The messages of the region lookup, with their nil-safe getters. *)
Record Region := mkRegion { RegionId : Z; StartKey : string; EndKey : string }.
Record Peer := mkPeer { PeerId : Z; PeerStoreId : Z }.
Record GetRegionResponse := mkGetRegionResponse {
  RespRegion : option Region;
  RespLeader : option Peer;
}.

Definition GetRegion_field (resp : GetRegionResponse) : option Region :=
  RespRegion resp.
Definition GetLeader_field (resp : GetRegionResponse) : option Peer :=
  RespLeader resp.

Section Lookups.

(** What the leader answers to a region lookup at a given time. *)
Variable pd_GetRegion : nat -> PDClient -> string -> Result GetRegionResponse.

Definition call_GetRegion (cl : option PDClient) (key : string)
  : M (Result GetRegionResponse) :=
  fun w => match cl with
           | None => Panic
           | Some h => Ret (pd_GetRegion (now w) h key) (tick w)
           end.

Definition GetRegion (key : string)
  : M (option Region * option Peer * option error) :=
  let* cl := leaderClient in
  let* r := call_GetRegion cl key in
  match r with
  | inl err => scheduleCheckLeader >> ret (None, None, Some (Trace err))
  | inr resp => ret (GetRegion_field resp, GetLeader_field resp, None)
  end.

End Lookups.

(** ** Vocabulary of the further properties *)

(** Partial correctness of a computation: if it returns from a world in
    [P], the result and the new world are in [Q]. *)
Definition hoare {A : Type} (P : world -> Prop) (m : M A)
    (Q : A -> world -> Prop) : Prop :=
  forall w a w', P w -> m w = Ret a w' -> Q a w'.

(** Requests are numbered in the order in which they enter the queue.  The
    requests completed so far, those a goroutine holds and those queued are,
    in this order, all the requests ever queued: nothing is lost, served
    twice or served out of turn. *)
Definition in_order (held : list nat) (w : world) : Prop :=
  completed (trace w) ++ held ++ queue w = seq 0 (nextp w).

(** Every logged completion is what the request object holds: its fields,
    and its slot, unless the owner has emptied it. *)
Definition delivered (w : world) : Prop :=
  forall p ph lg err, EvDone p ph lg err ∈ trace w ->
    exists r, heap w !! p = Some r /\ physical r = ph /\ logical r = lg /\
              cap (done r) = 1%nat /\
              (buf (done r) = [err] \/ buf (done r) = []).

(** What every step of every goroutine keeps: the invariant, the order of
    service and the agreement of log and heap (each where it is asked for),
    the cluster id and the address list, the handles there are, and a closed
    [quit]. *)
Record kept (ord dlv : bool) (id : Z) (us : list string)
    (reg : gmap string PDClient) (closed : bool) (held : list nat)
    (w : world) : Prop := mkKept {
  kept_inv : inv held w;
  kept_order : ord = true -> in_order held w;
  kept_delivered : dlv = true -> delivered w;
  kept_clusterID : clusterID (cli w) = id;
  kept_urls : urls (cli w) = us;
  kept_reg : reg ⊆ clients (cli w);
  kept_closed : closed = true -> quit (cli w) = true;
}.

(** The timestamps handed out in a log. *)
Definition stamp_of (e : event) : option (Z * Z) :=
  match e with EvDone _ ph lg None => Some (ph, lg) | _ => None end.

Definition stamps (tr : list event) : list (Z * Z) := omap stamp_of tr.

(** A leader that reports an empty address. *)
Definition env_noaddr : Env := with_GetLeader (fun _ _ => inr EmptyString) env_ok.

(** A region lookup that fails, and one that finds nothing. *)
Definition region_down : nat -> PDClient -> string -> Result GetRegionResponse :=
  fun _ _ _ => inl (External "rpc error: code = Unavailable").
Definition region_none : nat -> PDClient -> string -> Result GetRegionResponse :=
  fun _ _ _ => inr (mkGetRegionResponse None None).

(** Store lookups fail. *)
Definition env_storedown : Env :=
  with_GetStore (fun _ _ _ => inl (External "rpc error: code = Unavailable")) env_ok.

(** A step that leaves the requests, the log, the queue, the cluster id and
    the addresses alone, keeps the handles there are and a closed [quit]. *)
Record same_core (w w' : world) : Prop := mkSameCore {
  core_trace : trace w' = trace w;
  core_heap : heap w' = heap w;
  core_queue : tsoRequests (cli w') = tsoRequests (cli w);
  core_nextp : nextp w' = nextp w;
  core_clusterID : clusterID (cli w') = clusterID (cli w);
  core_urls : urls (cli w') = urls (cli w);
  core_reg : clients (cli w) ⊆ clients (cli w');
  core_quit : quit (cli w) = true -> quit (cli w') = true;
}.

(** One pass of [tsLoop] over the five queued requests, and a whole
    [Close]. *)
Definition w_served : world := exec (tsLoop env_ok 1) w_five.
Definition w_closed : world := exec (Close env_close 1 1) w_five.

(** The queue filled to its capacity: the requests [0 .. 9999], all fresh. *)
Definition w_full : world :=
  mkWorld (set_tsoRequests
             (mkChan (seq 0 maxMergeTSORequests) maxMergeTSORequests)
             (cli w_ready))
          (list_to_map
             (map (fun p : nat => (p, mkReq (make 1) 0 0))
                  (seq 0 maxMergeTSORequests)))
          maxMergeTSORequests 0 [].

(** * Properties *)

(** ** Strings *)

Lemma append_String (a : Ascii.ascii) (s t : string) :
  String a s +:+ t = String a (s +:+ t).
Proof. reflexivity. Qed.

Lemma append_empty (s : string) : EmptyString +:+ s = s.
Proof. reflexivity. Qed.

Lemma HasPrefix_spec (pre s : string) :
  HasPrefix s pre = true <-> exists post, s = pre +:+ post.
Proof.
  revert s. induction pre as [|a pre IH]; intros s.
  - split; [intros _; by exists s | by destruct s].
  - destruct s as [|b s]; simpl.
    + split; [done | intros [post H]; discriminate].
    + destruct (Ascii.eqb_spec a b) as [->|Hne].
      * rewrite IH. split; intros [post H]; exists post;
          rewrite append_String in *; congruence.
      * split; [done | intros [post H]; rewrite append_String in H; congruence].
Qed.

Lemma Contains_spec (sub s : string) :
  Contains s sub = true <-> occurs_in sub s.
Proof.
  unfold occurs_in. induction s as [|b s IH].
  - cbn [Contains]. rewrite orb_false_r, HasPrefix_spec. split.
    + intros [post H]. by exists EmptyString, post.
    + intros [pre [post H]]. destruct pre; [by exists post | discriminate].
  - cbn [Contains]. rewrite orb_true_iff, HasPrefix_spec, IH. split.
    + intros [[post H] | [pre [post H]]].
      * by exists EmptyString, post.
      * exists (String b pre), post. rewrite append_String. by rewrite H.
    + intros [pre [post H]]. destruct pre as [|c pre].
      * left. by exists post.
      * right. exists pre, post. rewrite append_String in H. congruence.
Qed.

(** ** Address normalization *)

Lemma addrsToUrls_fold (addrs acc : list string) :
  fold_left
    (fun urls addr =>
       if Contains addr "://" then urls ++ [addr]
       else urls ++ ["http://" +:+ addr])
    addrs acc
  = acc ++ addrsToUrls addrs.
Proof.
  unfold addrsToUrls. revert acc.
  induction addrs as [|a addrs IH]; intros acc; simpl.
  - by rewrite app_nil_r.
  - rewrite IH. rewrite (IH (if Contains a "://" then _ else _)).
    destruct (Contains a "://"); by rewrite <- app_assoc.
Qed.

Lemma addrsToUrls_cons (a : string) (addrs : list string) :
  addrsToUrls (a :: addrs)
  = (if Contains a "://" then a else "http://" +:+ a) :: addrsToUrls addrs.
Proof.
  unfold addrsToUrls at 1. simpl. rewrite addrsToUrls_fold.
  by destruct (Contains a "://").
Qed.

Lemma addrsToUrls_length (addrs : list string) :
  length (addrsToUrls addrs) = length addrs.
Proof.
  induction addrs as [|a addrs IH]; [done|].
  rewrite addrsToUrls_cons. simpl. by rewrite IH.
Qed.

Lemma addrsToUrls_lookup (addrs : list string) (i : nat) :
  addrsToUrls addrs !! i
  = (fun addr => if Contains addr "://" then addr else "http://" +:+ addr)
      <$> addrs !! i.
Proof.
  revert i. induction addrs as [|a addrs IH]; intros i; [done|].
  rewrite addrsToUrls_cons. destruct i as [|i]; [done|]. apply IH.
Qed.

(** C10. [addrsToUrls] returns a list of the same length as its input, and
    its [i]-th element is the [i]-th address itself when ["://"] occurs in
    it, and the address prefixed with ["http://"] when it does not. *)
Theorem addrsToUrls_spec (addrs : list string) :
  length (addrsToUrls addrs) = length addrs /\
  forall (i : nat) (addr : string),
    addrs !! i = Some addr ->
    (occurs_in "://" addr -> addrsToUrls addrs !! i = Some addr) /\
    (~ occurs_in "://" addr ->
     addrsToUrls addrs !! i = Some ("http://" +:+ addr)).
Proof.
  split; [apply addrsToUrls_length|].
  intros i addr Hi. rewrite addrsToUrls_lookup, Hi. simpl.
  destruct (Contains addr "://") eqn:Hc; split; intros H; try done.
  - apply Contains_spec in Hc. done.
  - apply Contains_spec in H. congruence.
Qed.

Lemma addrsToUrls_spec_witness :
  length (addrsToUrls ["10.0.0.1:2379"; "https://pd:2379"]) = 2%nat /\
  addrsToUrls ["10.0.0.1:2379"; "https://pd:2379"] !! 1%nat
    = Some "https://pd:2379" /\
  addrsToUrls ["10.0.0.1:2379"; "https://pd:2379"] !! 0%nat
    = Some "http://10.0.0.1:2379".
Proof.
  pose proof (addrsToUrls_spec ["10.0.0.1:2379"; "https://pd:2379"]) as [Hl H].
  split; [exact Hl|]. split.
  - apply (H 1%nat "https://pd:2379"); [reflexivity|].
    exists "https", "pd:2379". reflexivity.
  - apply (H 0%nat "10.0.0.1:2379"); [reflexivity|].
    intros Ho. apply Contains_spec in Ho. vm_compute in Ho. discriminate.
Defined.

(** ** The monad *)

Lemma bind_Ret {A B : Type} (m : M A) (k : A -> M B) (w w' : world) (a : A) :
  m w = Ret a w' -> bind m k w = k a w'.
Proof. intros H. unfold bind. by rewrite H. Qed.

Lemma world_eta (w : world) :
  w = mkWorld (cli w) (heap w) (nextp w) (now w) (trace w).
Proof. by destruct w. Qed.

Lemma client_eta (c : client) :
  c = mkClient (urls c) (clusterID c) (tsoRequests c) (clients c) (leader c)
        (checkLeaderCh c) (wg c) (quit c).
Proof. by destruct c. Qed.

(** ** The leader *)

Lemma leader_update_refl (w : world) : leader_update w w.
Proof.
  exists (clients (cli w)), (leader (cli w)), 0%nat. split; [|done].
  destruct w as [[] ? ? ? ?]; simpl. by rewrite Nat.add_0_r.
Qed.

Lemma leader_update_tick (w : world) : leader_update w (tick w).
Proof.
  exists (clients (cli w)), (leader (cli w)), 1%nat. split; [|done].
  destruct w as [[] ? ? ? ?]; simpl. by rewrite Nat.add_1_r.
Qed.

Lemma leader_update_trans (w1 w2 w3 : world) :
  leader_update w1 w2 -> leader_update w2 w3 -> leader_update w1 w3.
Proof.
  intros (cs & l & n & -> & H1) (cs' & l' & n' & -> & H2). simpl in *.
  exists cs', l', (n + n')%nat. split; [by rewrite Nat.add_assoc | auto].
Qed.

(** [switchLeader] returns; on success the leader is [addr] and has a
    handle. *)
Lemma switchLeader_returns (env : Env) (addr : string) (w : world) :
  exists e w', switchLeader env addr w = Ret e w' /\ leader_update w w'.
Proof.
  unfold switchLeader.
  destruct (clients (cli w) !! addr) as [h|] eqn:Hh.
  - eexists _, _. split; [done|].
    exists (clients (cli w)), addr, 0%nat. split.
    + destruct w as [[] ? ? ? ?]; simpl. by rewrite Nat.add_0_r.
    + intros _. by rewrite Hh.
  - destruct (grpc_Dial env (now w) addr) as [err|cc].
    + eexists _, _. split; [done|]. apply leader_update_tick.
    + eexists _, _. split; [done|].
      exists (<[addr := NewPDClient cc]> (clients (cli w))), addr, 1%nat. split.
      * destruct w as [[] ? ? ? ?]; simpl. by rewrite Nat.add_1_r.
      * intros _. by rewrite lookup_insert_eq.
Qed.

Lemma updateLeader_from_returns (env : Env) (us : list string) (w : world) :
  exists e w', updateLeader_from env us w = Ret e w' /\ leader_update w w'.
Proof.
  revert w. induction us as [|u us IH]; intros w; simpl.
  - eexists _, _. split; [done|]. apply leader_update_refl.
  - assert (Hrest : exists e w', updateLeader_from env us (tick w) = Ret e w'
                                 /\ leader_update w w').
    { destruct (IH (tick w)) as (e & w' & He & Hu). exists e, w'.
      split; [done|]. eapply leader_update_trans; [apply leader_update_tick|done]. }
    destruct (apiutil_NewClient env (now w) u) as [?|client]; [done|].
    destruct (api_GetLeader env (now w) client) as [?|addr]; [done|].
    case_decide.
    + eexists _, _. split; [done|]. apply leader_update_tick.
    + destruct (switchLeader_returns env addr (tick w)) as (e & w' & He & Hu).
      rewrite He.
      assert (leader_update w w')
        by (eapply leader_update_trans; [apply leader_update_tick|done]).
      destruct e; eexists _, _; done.
Qed.

Lemma updateLeader_returns (env : Env) (w : world) :
  exists e w', updateLeader env w = Ret e w' /\ leader_update w w'.
Proof. apply updateLeader_from_returns. Qed.

(** ** The invariant under the steps of other goroutines *)

Lemma inv_transfer (held : list nat) (w w' : world) :
  inv held w ->
  tsoRequests (cli w') = tsoRequests (cli w) ->
  (nextp w <= nextp w')%nat ->
  (forall p r, p ∈ pending held w -> heap w !! p = Some r ->
               heap w' !! p = Some r) ->
  trace w' = trace w ->
  is_Some (clients (cli w') !! leader (cli w')) ->
  slot_ok w' ->
  inv held w'.
Proof.
  intros [] Hq Hn Hh Ht Hl Hs.
  assert (Hp : pending held w' = pending held w)
    by (unfold pending, queue; by rewrite Hq).
  split; unfold queue; rewrite ?Hq, ?Hp, ?Ht; try done.
  - intros p Hp'. destruct (inv_fresh0 p Hp') as (Hlt & r & Hr & Hf).
    split; [lia|]. exists r. split; [by apply Hh | done].
  - intros p He.
    destruct (inv_done0 p He) as [Hlt Hnp]. split; [lia | done].
Qed.

Lemma no_arrival (w w' : world) :
  queue w' = queue w ->
  exists arrived, queue w' = queue w ++ arrived /\
                  Forall (fun p => (nextp w <= p)%nat) arrived.
Proof. intros ->. exists []. by rewrite app_nil_r. Qed.

Lemma rely_refl (w : world) : rely w w.
Proof. split; try done. by apply no_arrival. Qed.

Lemma rely_trans (w1 w2 w3 : world) : rely w1 w2 -> rely w2 w3 -> rely w1 w3.
Proof.
  intros [] []. split; try congruence; try lia; try tauto.
  destruct rely_queue0 as (a1 & H1 & F1), rely_queue1 as (a2 & H2 & F2).
  exists (a1 ++ a2). split; [by rewrite H2, H1, app_assoc|].
  apply Forall_app. split; [done|].
  eapply Forall_impl; [exact F2|]. simpl. intros. lia.
Qed.

Lemma rely_tick (w : world) : rely w (tick w).
Proof.
  split; simpl; try done; try lia. by apply no_arrival.
Qed.

Lemma inv_tick (held : list nat) (w : world) : inv held w -> inv held (tick w).
Proof. intros []. by split. Qed.

Lemma inv_leader_update (held : list nat) (w w' : world) :
  inv held w -> leader_update w w' -> inv held w' /\ rely w w'.
Proof.
  intros Hi (cs & l & n & -> & Hl). split.
  - eapply inv_transfer; eauto; simpl; try done.
    + apply Hl, Hi.
    + apply Hi.
  - split; simpl; try done; try lia. by apply no_arrival.
Qed.

Lemma scheduleCheckLeader_returns (w : world) :
  exists w', scheduleCheckLeader w = Ret tt w' /\
    (forall held, inv held w -> inv held w') /\ rely w w' /\
    (slot_ok w -> slot_ok w') /\
    heap w' = heap w /\ nextp w' = nextp w.
Proof.
  unfold scheduleCheckLeader, send.
  case_decide as Hlen.
  - eexists. split; [done|].
    assert (Hs : slot_ok w -> slot_ok (with_cli (set_checkLeaderCh
              (mkChan (buf (checkLeaderCh (cli w)) ++ [()])
                      (cap (checkLeaderCh (cli w))))) w)).
    { intros [Hc Hl]. split; simpl; [done|]. rewrite length_app. simpl. lia. }
    split; [|split; [|split]]; try done.
    + intros held Hi. eapply inv_transfer; eauto; simpl; try apply Hi.
      apply Hs, Hi.
    + split; simpl; try done. by apply no_arrival.
  - eexists. split; [done|]. split; [done|]. split; [apply rely_refl|done].
Qed.

Lemma recv_checkLeaderCh_spec (w w' : world) (u : unit) :
  recv_checkLeaderCh w = Ret u w' ->
  (forall held, inv held w -> inv held w') /\ rely w w' /\
  (slot_ok w -> slot_ok w').
Proof.
  unfold recv_checkLeaderCh, recv.
  destruct (buf (checkLeaderCh (cli w))) as [|x rest] eqn:Hb; [done|].
  intros [= <- <-].
  assert (Hs : slot_ok w -> slot_ok (with_cli (set_checkLeaderCh
            (mkChan rest (cap (checkLeaderCh (cli w))))) w)).
  { intros [Hc Hl]. split; simpl; [done|]. rewrite Hb in Hl. simpl in Hl. lia. }
  split; [|split]; try done.
  - intros held Hi. eapply inv_transfer; eauto; simpl; try apply Hi.
    apply Hs, Hi.
  - split; simpl; try done. by apply no_arrival.
Qed.

(** A caller queueing a new request. *)
Lemma GetTS_enqueue_spec (held : list nat) (w w' : world) (p : nat) :
  inv held w ->
  GetTS_enqueue w = Ret p w' ->
  inv held w' /\ rely w w' /\ p = nextp w /\ queue w' = queue w ++ [p].
Proof.
  intros Hi. unfold GetTS_enqueue, bind, new_tsoRequest, send_tsoRequests, send, ret.
  simpl. case_decide as Hlen; [|done]. intros [= <- <-].
  split; [|split; [|done]].
  - destruct Hi. unfold pending, queue in *.
    split; unfold pending, queue; simpl; try done.
    + rewrite length_app. simpl. rewrite inv_cap0 in Hlen. lia.
    + rewrite app_assoc. apply NoDup_app. split; [done|]. split.
      * intros x Hx ->%list_elem_of_singleton.
        apply inv_fresh0 in Hx as [Hx _]. lia.
      * apply NoDup_singleton.
    + intros q Hq. rewrite app_assoc in Hq.
      apply elem_of_app in Hq as [Hq| ->%list_elem_of_singleton].
      * destruct (inv_fresh0 q Hq) as (Hlt & r & Hr & Hf). split; [lia|].
        exists r. split; [|done]. rewrite lookup_insert_ne; [done|lia].
      * split; [lia|]. eexists. rewrite lookup_insert_eq. done.
    + intros q He.
      destruct (inv_done0 q He) as [Hlt Hnp]. split; [lia|].
      rewrite app_assoc. intros [Hq| ->%list_elem_of_singleton]%elem_of_app;
        [done | lia].
  - split; simpl; try done; try lia. exists [nextp w]. split; [done|].
    by apply Forall_singleton.
Qed.

(** The owner of a request reading its completion slot. *)
Lemma recv_done_spec (held : list nat) (w w' : world) (p : nat) (e : option error) :
  inv held w ->
  recv_done p w = Ret e w' ->
  inv held w' /\ rely w w' /\ (p ∉ pending held w) /\ nextp w' = nextp w /\
  exists r ch, heap w !! p = Some r /\ heap w' = (<[p := set_done ch r]> (heap w)).
Proof.
  intros Hi. unfold recv_done, recv.
  destruct (heap w !! p) as [r|] eqn:Hr; [|done].
  destruct (buf (done r)) as [|x rest] eqn:Hb; [done|].
  intros [= <- <-].
  assert (Hnp : p ∉ pending held w).
  { intros Hp. destruct (inv_fresh _ _ Hi p Hp) as (_ & r' & Hr' & Hf & _).
    rewrite Hr in Hr'. injection Hr' as <-. rewrite Hf in Hb. done. }
  split; [|split; [|split; [done|split; [done|]]]].
  - eapply inv_transfer; eauto; simpl; try apply Hi.
    intros q r' Hq Hr'. rewrite lookup_insert_ne; [done|]. by intros ->.
  - split; simpl; try done. by apply no_arrival.
  - by eexists _, _.
Qed.

Lemma GetTS_receive_spec (held : list nat) (w w' : world) (p : nat)
    (res : Z * Z * option error) :
  inv held w ->
  GetTS_receive p w = Ret res w' ->
  inv held w' /\ rely w w'.
Proof.
  intros Hi. unfold GetTS_receive, bind.
  destruct (recv_done p w) as [e w1| |] eqn:Hrecv; [|done|done].
  destruct (recv_done_spec _ _ _ _ _ Hi Hrecv) as (Hi1 & Hr1 & _).
  destruct e as [e|].
  - destruct (scheduleCheckLeader_returns w1) as (w2 & Hs & Hi2 & Hr2 & _).
    rewrite Hs. unfold ret. intros [= <- <-].
    split; [by apply Hi2 | by eapply rely_trans].
  - unfold load. destruct (heap w1 !! p); [|done]. unfold ret.
    intros [= <- <-]. done.
Qed.

Lemma env_step_inv (env : Env) (held : list nat) (a : env_action) (w : world) :
  inv held w -> inv held (env_step env a w) /\ rely w (env_step env a w).
Proof.
  intros Hi. destruct a; simpl; unfold exec.
  - destruct (GetTS_enqueue w) as [p w'| |] eqn:He;
      [|split; [done|apply rely_refl]..].
    destruct (GetTS_enqueue_spec _ _ _ _ Hi He) as (? & ? & _). done.
  - destruct (GetTS_receive req w) as [res w'| |] eqn:He;
      [|split; [done|apply rely_refl]..].
    by eapply GetTS_receive_spec.
  - destruct (scheduleCheckLeader_returns w) as (w' & -> & Hi' & Hr & _).
    split; [by apply Hi' | done].
  - unfold bind.
    destruct (recv_checkLeaderCh w) as [u w1| |] eqn:He;
      [|split; [done|apply rely_refl]..].
    destruct (recv_checkLeaderCh_spec _ _ _ He) as (Hi1 & Hr1 & _).
    destruct (updateLeader_returns env w1) as (e & w' & -> & Hu).
    destruct (inv_leader_update held _ _ (Hi1 _ Hi) Hu) as [Hi2 Hr2].
    split; [done | by eapply rely_trans].
  - destruct (updateLeader_returns env w) as (e & w' & -> & Hu).
    by apply inv_leader_update.
  - split.
    + eapply inv_transfer; eauto; simpl; try apply Hi.
    + split; simpl; try done. by apply no_arrival.
Qed.

Lemma interfere_inv (env : Env) (held : list nat) (acts : list env_action)
    (w : world) :
  inv held w -> inv held (interfere env acts w) /\ rely w (interfere env acts w).
Proof.
  revert w. induction acts as [|a acts IH]; intros w Hi; simpl.
  - split; [done | apply rely_refl].
  - destruct (env_step_inv env held a w Hi) as [Hi1 Hr1].
    destruct (IH _ Hi1) as [Hi2 Hr2]. split; [done | by eapply rely_trans].
Qed.

(** Yielding never blocks; the invariant holds afterwards and the other
    goroutines have only done what [rely] allows. *)
Lemma yield_spec (env : Env) (allowed : env_action -> bool) (held : list nat)
    (w : world) :
  inv held w ->
  exists w', yield env allowed w = Ret tt w' /\ inv held w' /\ rely w w'.
Proof.
  intros Hi. unfold yield. eexists. split; [done|].
  destruct (interfere_inv env held
              (List.filter allowed (interference env (now w))) (tick w)
              (inv_tick _ _ Hi)) as [Hi' Hr].
  split; [done|]. eapply rely_trans; [apply rely_tick | done].
Qed.

(** ** The steps of the batcher *)

Lemma completed_app (tr1 tr2 : list event) :
  completed (tr1 ++ tr2) = completed tr1 ++ completed tr2.
Proof. apply omap_app. Qed.

Lemma tso_calls_app (tr1 tr2 : list event) :
  tso_calls (tr1 ++ tr2) = tso_calls tr1 ++ tso_calls tr2.
Proof. apply omap_app. Qed.

(** Logging the completion of a held request keeps the log's part of the
    invariant. *)
Lemma completed_snoc (w : world) (p : nat) (phys logi : Z) (err : option error) :
  inv [p] w ->
  NoDup (completed (trace w ++ [EvDone p phys logi err])) /\
  forall q, q ∈ completed (trace w ++ [EvDone p phys logi err]) ->
            (q < nextp w)%nat /\ q ∉ queue w.
Proof.
  intros Hi. rewrite completed_app. simpl.
  assert (Hp : p ∈ pending [p] w) by (apply elem_of_cons; by left).
  split.
  - apply NoDup_app. split; [apply Hi|]. split; [|apply NoDup_singleton].
    intros q Hq ->%list_elem_of_singleton.
    by destruct (inv_done _ _ Hi p Hq).
  - intros q [Hq| ->%list_elem_of_singleton]%elem_of_app.
    + destruct (inv_done _ _ Hi q Hq) as [? Hn]. split; [done|].
      intros Hin. apply Hn, elem_of_cons. by right.
    + split; [by apply (inv_fresh _ _ Hi)|].
      pose proof (inv_nodup _ _ Hi) as Hnd.
      by apply NoDup_cons in Hnd as [? _].
Qed.

Lemma progress_refl (w : world) : progress w w.
Proof. by split. Qed.

Lemma progress_trans (w1 w2 w3 : world) :
  progress w1 w2 -> progress w2 w3 -> progress w1 w3.
Proof. intros [] []. split; try congruence; try lia; tauto. Qed.

Lemma rely_progress (w w' : world) : rely w w' -> progress w w'.
Proof. intros []. by split. Qed.

(** Taking the oldest request from the queue: the receiver now holds it. *)
Lemma recv_tsoRequests_spec (w : world) (p : nat) (rest : list nat) :
  inv [] w ->
  queue w = p :: rest ->
  exists w', recv_tsoRequests w = Ret p w' /\ inv [p] w' /\ queue w' = rest /\
             trace w' = trace w /\ nextp w' = nextp w /\ progress w w'.
Proof.
  intros Hi Hq. unfold recv_tsoRequests, recv. unfold queue in Hq. rewrite Hq.
  eexists. split; [done|].
  split; [|split; [done|split; [done|split; [done|by split]]]].
  destruct Hi. unfold pending, queue in *. rewrite Hq in *. simpl in *.
  split; unfold pending, queue; simpl; try done. lia.
Qed.

(** Filling the completion slot of a held request: the slot is empty and of
    capacity one, so the send goes through. *)
Lemma send_done_spec (w : world) (p : nat) (err : option error) :
  inv [p] w ->
  exists w', send_done p err w = Ret tt w' /\ inv [] w' /\
             trace w' = trace w ++ [EvDone p 0 0 err] /\
             queue w' = queue w /\ nextp w' = nextp w /\ progress w w'.
Proof.
  intros Hi. unfold send_done.
  pose proof (completed_snoc w p 0 0 err Hi) as Hlog.
  destruct (inv_fresh _ _ Hi p) as (Hlt & r & Hr & Hd & Hph & Hlo).
  { unfold pending. apply elem_of_cons. by left. }
  rewrite Hr, Hd, Hph, Hlo. unfold send, make. simpl.
  eexists. split; [done|].
  split; [|split; [done|split; [done|split; [done|by split]]]].
  destruct Hi. unfold pending, queue in *. simpl in *.
  apply NoDup_cons in inv_nodup0 as [Hnotin Hnd].
  split; unfold pending, queue; simpl; try done.
  - intros q Hq. destruct (inv_fresh0 q) as (Hlt' & r' & Hr' & Hf');
      [apply elem_of_cons; by right|].
    split; [done|]. exists r'. split; [|done].
    rewrite lookup_insert_ne; [done|]. by intros ->.
  - apply Hlog.
  - apply Hlog.
Qed.

Lemma finishTSORequest_spec (w : world) (p : nat) (phys logi : Z)
    (err : option error) :
  inv [p] w ->
  exists w', finishTSORequest p phys logi err w = Ret tt w' /\ inv [] w' /\
             trace w' = trace w ++ [EvDone p phys logi err] /\
             queue w' = queue w /\ nextp w' = nextp w /\ progress w w' /\
             heap w' !! p = Some (mkReq (mkChan [err] 1) phys logi).
Proof.
  intros Hi. unfold finishTSORequest, bind, store_fields, send_done.
  pose proof (completed_snoc w p phys logi err Hi) as Hlog.
  destruct (inv_fresh _ _ Hi p) as (Hlt & r & Hr & Hd & Hph & Hlo).
  { unfold pending. apply elem_of_cons. by left. }
  rewrite Hr. simpl. rewrite lookup_insert_eq. simpl. rewrite Hd.
  unfold send, make. simpl.
  eexists. split; [done|].
  split; [|split; [done|split; [done|split; [done|split; [by split|]]]]].
  - destruct Hi. unfold pending, queue in *. simpl in *.
    apply NoDup_cons in inv_nodup0 as [Hnotin Hnd].
    split; unfold pending, queue; simpl; try done.
    + intros q Hq. destruct (inv_fresh0 q) as (Hlt' & r' & Hr' & Hf');
      [apply elem_of_cons; by right|].
      split; [done|]. exists r'. split; [|done].
      rewrite !lookup_insert_ne; [done|by intros ->..].
    + apply Hlog.
    + apply Hlog.
  - simpl. by rewrite lookup_insert_eq.
Qed.

(** The head of each loop: the other goroutines run, the oldest request is
    taken, the other goroutines run again. *)
Lemma take_next_spec {A : Type} (env : Env) (allowed : env_action -> bool)
    (k : nat -> M A) (w : world) (p : nat) (rest : list nat) :
  inv [] w ->
  queue w = p :: rest ->
  exists w',
    (let* _ := yield env allowed in
     let* req := recv_tsoRequests in
     let* _ := yield env allowed in
     k req) w = k p w' /\
    inv [p] w' /\ trace w' = trace w /\ progress w w' /\
    exists arrived, queue w' = rest ++ arrived /\
                    Forall (fun q => (nextp w <= q)%nat) arrived.
Proof.
  intros Hi Hq.
  destruct (yield_spec env allowed _ _ Hi) as (w1 & Hy1 & Hi1 & Hr1).
  destruct (rely_queue _ _ Hr1) as (a1 & Hq1 & Hf1). rewrite Hq in Hq1.
  destruct (recv_tsoRequests_spec w1 p (rest ++ a1) Hi1 Hq1)
    as (w2 & Hrecv & Hi2 & Hq2 & Ht2 & Hn2 & Hp2).
  destruct (yield_spec env allowed _ _ Hi2) as (w3 & Hy3 & Hi3 & Hr3).
  destruct (rely_queue _ _ Hr3) as (a3 & Hq3 & Hf3).
  exists w3. split; [|split; [done|split; [|split]]].
  - rewrite (bind_Ret _ _ _ _ _ Hy1), (bind_Ret _ _ _ _ _ Hrecv).
    by rewrite (bind_Ret _ _ _ _ _ Hy3).
  - rewrite (rely_trace _ _ Hr3), Ht2. apply Hr1.
  - eapply progress_trans; [by apply rely_progress|].
    eapply progress_trans; [done | by apply rely_progress].
  - exists (a1 ++ a3). split; [by rewrite Hq3, Hq2, app_assoc|].
    apply Forall_app. split; [done|].
    eapply Forall_impl; [exact Hf3|]. simpl. intros q Hle.
    pose proof (rely_nextp _ _ Hr1). lia.
Qed.

(** The loop of the error path completes the [n] oldest requests with the
    error, in queue order, whatever arrives meanwhile. *)
Lemma failPending_spec (env : Env) (err : error) (qs : list nat) :
  forall (w : world) (rest : list nat),
    inv [] w ->
    queue w = qs ++ rest ->
    exists w',
      failPending env (length qs) err w = Ret tt w' /\ inv [] w' /\
      trace w' = trace w ++ failed err qs /\ progress w w' /\
      exists arrived, queue w' = rest ++ arrived /\
                      Forall (fun q => (nextp w <= q)%nat) arrived.
Proof.
  induction qs as [|q qs IH]; intros w rest Hi Hq.
  - exists w. simpl. split; [done|]. split; [done|].
    split; [by rewrite app_nil_r|]. split; [apply progress_refl|].
    exists []. by rewrite app_nil_r.
  - cbn [length failPending].
    destruct (take_next_spec env anyone
                (fun req => finishTSORequest req 0 0 (Some (Trace err)) >>
                            failPending env (length qs) err)
                w q (qs ++ rest) Hi Hq)
      as (w1 & -> & Hi1 & Ht1 & Hp1 & a1 & Hq1 & Hf1).
    destruct (finishTSORequest_spec w1 q 0 0 (Some (Trace err)) Hi1)
      as (w2 & Hfin & Hi2 & Ht2 & Hq2 & Hn2 & Hp2 & _).
    rewrite (bind_Ret _ _ _ _ _ Hfin).
    destruct (IH w2 (rest ++ a1) Hi2) as (w3 & Hrec & Hi3 & Ht3 & Hp3 & a3 & Hq3 & Hf3).
    { by rewrite Hq2, Hq1, app_assoc. }
    exists w3. split; [done|]. split; [done|]. split; [|split].
    + rewrite Ht3, Ht2, Ht1. by rewrite <- app_assoc.
    + eauto using progress_trans.
    + exists (a1 ++ a3). split; [by rewrite Hq3, app_assoc|].
      apply Forall_app. split; [done|].
      eapply Forall_impl; [exact Hf3|]. simpl. intros p Hle.
      pose proof (progress_nextp _ _ Hp1). lia.
Qed.

(** The loop of the success path hands out the decremented logical values
    to the [n] oldest requests, in queue order. *)
Lemma assignPending_spec (env : Env) (phys : Z) (qs : list nat) :
  forall (logi : Z) (w : world) (rest : list nat),
    inv [] w ->
    queue w = qs ++ rest ->
    exists w',
      assignPending env (length qs) phys logi w = Ret tt w' /\ inv [] w' /\
      trace w' = trace w ++ assigned phys logi qs /\ progress w w' /\
      exists arrived, queue w' = rest ++ arrived /\
                      Forall (fun q => (nextp w <= q)%nat) arrived.
Proof.
  induction qs as [|q qs IH]; intros logi w rest Hi Hq.
  - exists w. simpl. split; [done|]. split; [done|].
    split; [by rewrite app_nil_r|]. split; [apply progress_refl|].
    exists []. by rewrite app_nil_r.
  - cbn [length assignPending assigned].
    destruct (take_next_spec env anyone
                (fun req => finishTSORequest req phys (wrap64 (logi - 1)) None >>
                            assignPending env (length qs) phys (wrap64 (logi - 1)))
                w q (qs ++ rest) Hi Hq)
      as (w1 & -> & Hi1 & Ht1 & Hp1 & a1 & Hq1 & Hf1).
    destruct (finishTSORequest_spec w1 q phys (wrap64 (logi - 1)) None Hi1)
      as (w2 & Hfin & Hi2 & Ht2 & Hq2 & Hn2 & Hp2 & _).
    rewrite (bind_Ret _ _ _ _ _ Hfin).
    destruct (IH (wrap64 (logi - 1)) w2 (rest ++ a1) Hi2)
      as (w3 & Hrec & Hi3 & Ht3 & Hp3 & a3 & Hq3 & Hf3).
    { by rewrite Hq2, Hq1, app_assoc. }
    exists w3. split; [done|]. split; [done|]. split; [|split].
    + rewrite Ht3, Ht2, Ht1. by rewrite <- app_assoc.
    + eauto using progress_trans.
    + exists (a1 ++ a3). split; [by rewrite Hq3, app_assoc|].
      apply Forall_app. split; [done|].
      eapply Forall_impl; [exact Hf3|]. simpl. intros p Hle.
      pose proof (progress_nextp _ _ Hp1). lia.
Qed.

(** ** One round of the batcher *)

Lemma uint32_count (w : world) (held : list nat) :
  inv held w ->
  uint32 (Z.of_nat (length (queue w)) + 1) = Z.of_nat (length (queue w)) + 1.
Proof.
  intros Hi. pose proof (inv_len _ _ Hi) as Hlen.
  assert (Hmax : Z.of_nat maxMergeTSORequests = 10000) by reflexivity.
  unfold uint32. apply Z.mod_small. lia.
Qed.

Lemma inv_call_Tso (held : list nat) (w : world) (h : PDClient) (req : TsoRequest) :
  inv held w -> inv held (tick (log (EvTso h req) w)).
Proof.
  intros []. split; try done; simpl; rewrite completed_app; simpl;
    by rewrite app_nil_r.
Qed.

Lemma arrived_later (w w' : world) (arrived : list nat) :
  (nextp w <= nextp w')%nat ->
  Forall (fun q => (nextp w' <= q)%nat) arrived ->
  Forall (fun q => (nextp w <= q)%nat) arrived.
Proof. intros Hle HF. eapply Forall_impl; [exact HF|]. simpl. intros. lia. Qed.

Lemma failBatch_spec (env : Env) (err : error) (first : nat) (qs : list nat)
    (w : world) (rest : list nat) :
  inv [first] w ->
  queue w = qs ++ rest ->
  exists w',
    failBatch env first (length qs) err w = Ret tt w' /\ inv [] w' /\
    trace w' = trace w ++ failed err (first :: qs) /\ progress w w' /\
    exists arrived, queue w' = rest ++ arrived /\
                    Forall (fun q => (nextp w <= q)%nat) arrived.
Proof.
  intros Hi Hq. unfold failBatch.
  destruct (finishTSORequest_spec w first 0 0 (Some (Trace err)) Hi)
    as (w1 & Hfin & Hi1 & Ht1 & Hq1 & Hn1 & Hp1 & _).
  rewrite (bind_Ret _ _ _ _ _ Hfin).
  destruct (failPending_spec env err qs w1 rest Hi1)
    as (w2 & Hrec & Hi2 & Ht2 & Hp2 & a & Hq2 & Hf2); [congruence|].
  exists w2. split; [done|]. split; [done|]. split; [|split].
  - rewrite Ht2, Ht1. by rewrite <- app_assoc.
  - eauto using progress_trans.
  - exists a. split; [done|]. by rewrite <- Hn1.
Qed.

Lemma assignBatch_spec (env : Env) (phys logi : Z) (first : nat) (qs : list nat)
    (w : world) (rest : list nat) :
  inv [first] w ->
  queue w = qs ++ rest ->
  exists w',
    (finishTSORequest first phys logi None >>
     assignPending env (length qs) phys logi) w = Ret tt w' /\ inv [] w' /\
    trace w' = trace w ++ EvDone first phys logi None :: assigned phys logi qs /\
    progress w w' /\
    exists arrived, queue w' = rest ++ arrived /\
                    Forall (fun q => (nextp w <= q)%nat) arrived.
Proof.
  intros Hi Hq.
  destruct (finishTSORequest_spec w first phys logi None Hi)
    as (w1 & Hfin & Hi1 & Ht1 & Hq1 & Hn1 & Hp1 & _).
  rewrite (bind_Ret _ _ _ _ _ Hfin).
  destruct (assignPending_spec env phys qs logi w1 rest Hi1)
    as (w2 & Hrec & Hi2 & Ht2 & Hp2 & a & Hq2 & Hf2); [congruence|].
  exists w2. split; [done|]. split; [done|]. split; [|split].
  - rewrite Ht2, Ht1. by rewrite <- app_assoc.
  - eauto using progress_trans.
  - exists a. split; [done|]. by rewrite <- Hn1.
Qed.

(** The round as a whole.  [w] is the world when the snapshot
    [len(c.tsoRequests)] is taken, [first] being held; the remote call is
    made in the world the first yield leads to. *)
Lemma processTSORequests_spec (env : Env) (first : nat) (w : world) :
  inv [first] w ->
  let w1 := exec (yield env anyone) w in
  let req := mkTsoRequest (clusterID (cli w))
               (Z.of_nat (length (queue w)) + 1) in
  exists h w',
    clients (cli w1) !! leader (cli w1) = Some h /\
    processTSORequests env first w = Ret tt w' /\
    inv [] w' /\ progress w w' /\
    Forall (fun q => (nextp w <= q)%nat) (queue w') /\
    trace w' = trace w ++ EvTso h req
                 :: batch_log (pd_Tso env (now w1) h req) first (queue w).
Proof.
  intros Hi w1 req.
  destruct (yield_spec env anyone _ _ Hi) as (w1' & Hy1 & Hi1 & Hr1).
  assert (Hw1 : w1 = w1') by (unfold w1, exec; by rewrite Hy1).
  rewrite <- Hw1 in *. clear Hw1 w1'.
  destruct (inv_leader _ _ Hi1) as [h Hh]. exists h.
  destruct (rely_queue _ _ Hr1) as (a1 & Hq1 & Hf1).
  set (w2 := tick (log (EvTso h req) w1)).
  assert (Hi2 : inv [first] w2) by by apply inv_call_Tso.
  destruct (yield_spec env anyone _ _ Hi2) as (w3 & Hy3 & Hi3 & Hr3).
  destruct (rely_queue _ _ Hr3) as (a3 & Hq3 & Hf3).
  assert (Hq : queue w3 = queue w ++ (a1 ++ a3)).
  { rewrite Hq3. unfold w2. change (queue (tick (log _ w1))) with (queue w1).
    by rewrite Hq1, app_assoc. }
  assert (Ht3 : trace w3 = trace w ++ [EvTso h req]).
  { rewrite (rely_trace _ _ Hr3). unfold w2. simpl. by rewrite (rely_trace _ _ Hr1). }
  assert (Hp3 : progress w w3).
  { eapply progress_trans; [by apply rely_progress|].
    eapply progress_trans; [|by apply rely_progress].
    unfold w2. split; simpl; try done. lia. }
  assert (Hstart :
    processTSORequests env first w =
    match pd_Tso env (now w1) h req with
    | inl err => failBatch env first (length (queue w)) err w3
    | inr resp =>
        if decide (GetCount resp = Z.of_nat (length (queue w)) + 1)
        then (finishTSORequest first (GetPhysical (GetTimestamp resp))
                (GetLogical (GetTimestamp resp)) None >>
              assignPending env (length (queue w))
                (GetPhysical (GetTimestamp resp))
                (GetLogical (GetTimestamp resp))) w3
        else failBatch env first (length (queue w)) errTSOLength w3
    end).
  { unfold processTSORequests, bind at 1, len_tsoRequests, len.
    fold (queue w). rewrite (bind_Ret _ _ _ _ _ Hy1).
    unfold bind at 1, leaderClient. rewrite Hh.
    unfold bind at 1, get. unfold bind at 1, call_Tso.
    rewrite (rely_clusterID _ _ Hr1), (uint32_count _ _ Hi).
    fold req. fold w2. rewrite (bind_Ret _ _ _ _ _ Hy3).
    destruct (pd_Tso env (now w1) h req) as [err|resp]; [done|].
    by destruct (decide _). }
  assert (Hearly : Forall (fun q => (nextp w <= q)%nat) (a1 ++ a3)).
  { apply Forall_app. split; [done|].
    eapply arrived_later; [|exact Hf3]. unfold w2. simpl. apply Hr1. }
  rewrite Hstart. unfold batch_log.
  destruct (pd_Tso env (now w1) h req) as [err|resp];
    [|destruct (decide _)].
  - destruct (failBatch_spec env err first (queue w) w3 (a1 ++ a3) Hi3 Hq)
      as (w' & Hrun & Hi' & Ht' & Hp' & a & Hq' & Hf').
    exists w'. split; [done|]. split; [done|]. split; [done|].
    split; [eauto using progress_trans|]. split.
    + rewrite Hq'. apply Forall_app. split; [done|].
      eapply arrived_later; [apply Hp3 | done].
    + rewrite Ht', Ht3. by rewrite <- app_assoc.
  - destruct (assignBatch_spec env (GetPhysical (GetTimestamp resp))
                (GetLogical (GetTimestamp resp)) first (queue w) w3 (a1 ++ a3)
                Hi3 Hq)
      as (w' & Hrun & Hi' & Ht' & Hp' & a & Hq' & Hf').
    exists w'. split; [done|]. split; [done|]. split; [done|].
    split; [eauto using progress_trans|]. split.
    + rewrite Hq'. apply Forall_app. split; [done|].
      eapply arrived_later; [apply Hp3 | done].
    + rewrite Ht', Ht3. by rewrite <- app_assoc.
  - destruct (failBatch_spec env errTSOLength first (queue w) w3 (a1 ++ a3) Hi3 Hq)
      as (w' & Hrun & Hi' & Ht' & Hp' & a & Hq' & Hf').
    exists w'. split; [done|]. split; [done|]. split; [done|].
    split; [eauto using progress_trans|]. split.
    + rewrite Hq'. apply Forall_app. split; [done|].
      eapply arrived_later; [apply Hp3 | done].
    + rewrite Ht', Ht3. by rewrite <- app_assoc.
Qed.

(** ** The loops *)

Lemma ready_from_spec (ready : list bool) :
  forall (n i : nat), i ∈ ready_from n ready ->
    (n <= i)%nat /\ ready !! (i - n)%nat = Some true.
Proof.
  induction ready as [|b ready IH]; intros n i Hi; simpl in Hi.
  - by apply elem_of_nil in Hi.
  - apply elem_of_app in Hi as [Hi|Hi].
    + destruct b; [|by apply elem_of_nil in Hi].
      apply list_elem_of_singleton in Hi as ->.
      split; [lia|]. by rewrite Nat.sub_diag.
    + destruct (IH _ _ Hi) as [Hle Hl]. split; [lia|].
      replace (i - n)%nat with (S (i - S n)) by lia. done.
Qed.

(** A [select] never blocks here: it takes a ready case or reports that
    none is ready; at most the clock has ticked. *)
Lemma select_spec (env : Env) (ready : list bool) (w : world) :
  exists c w', select env ready w = Ret c w' /\ (w' = w \/ w' = tick w) /\
    forall i, c = Some i -> ready !! i = Some true.
Proof.
  unfold select. destruct (ready_from 0 ready) as [|r rs] eqn:Hrs.
  - exists None, w. split; [done|]. split; [by left | done].
  - eexists _, _. split; [done|]. split; [by right|].
    intros i Hi. apply list_elem_of_lookup_2 in Hi. rewrite <- Hrs in Hi.
    apply ready_from_spec in Hi as [_ Hi]. by rewrite Nat.sub_0_r in Hi.
Qed.



Lemma wg_Done_spec (held : list nat) (w : world) :
  inv held w ->
  match wg_Done w with
  | Ret _ w' => inv held w' /\ wg (cli w) = S (wg (cli w')) /\
                trace w' = trace w /\ queue w' = queue w /\
                nextp w' = nextp w /\ quit (cli w') = quit (cli w)
  | Block => False
  | Panic => wg (cli w) = 0%nat
  end.
Proof.
  intros Hi. unfold wg_Done. destruct (wg (cli w)) as [|n] eqn:Hwg; [done|].
  split; [|done]. eapply inv_transfer; eauto; simpl; apply Hi.
Qed.




(** ** Shutdown *)

Lemma bind_assoc {A B C : Type} (m : M A) (k : A -> M B) (k' : B -> M C)
    (w : world) :
  bind (bind m k) k' w = bind m (fun a => bind (k a) k') w.
Proof. unfold bind. by destruct (m w). Qed.


(** ** What a round logs *)

Lemma completed_failed (err : error) (qs : list nat) :
  completed (failed err qs) = qs.
Proof. induction qs as [|q qs IH]; [done|]. simpl. by rewrite IH. Qed.

Lemma completed_assigned (phys logi : Z) (qs : list nat) :
  completed (assigned phys logi qs) = qs.
Proof.
  revert logi. induction qs as [|q qs IH]; intros logi; [done|].
  simpl. by rewrite IH.
Qed.

Lemma tso_calls_failed (err : error) (qs : list nat) :
  tso_calls (failed err qs) = [].
Proof. induction qs as [|q qs IH]; [done|]. simpl. by rewrite IH. Qed.

Lemma tso_calls_assigned (phys logi : Z) (qs : list nat) :
  tso_calls (assigned phys logi qs) = [].
Proof.
  revert logi. induction qs as [|q qs IH]; intros logi; [done|].
  simpl. by rewrite IH.
Qed.

Lemma completed_batch_log (r : Result TsoResponse) (first : nat) (qs : list nat) :
  completed (batch_log r first qs) = first :: qs.
Proof.
  unfold batch_log. destruct r as [err|resp]; [apply completed_failed|].
  case_decide; [|apply completed_failed].
  change (completed (?e :: ?l)) with (first :: completed l).
  by rewrite completed_assigned.
Qed.

Lemma tso_calls_batch_log (r : Result TsoResponse) (first : nat) (qs : list nat) :
  tso_calls (batch_log r first qs) = [].
Proof.
  unfold batch_log. destruct r as [err|resp]; [apply tso_calls_failed|].
  case_decide; [|apply tso_calls_failed].
  change (tso_calls (?e :: ?l)) with (tso_calls l).
  apply tso_calls_assigned.
Qed.

(** ** Wrap-around of the logical value *)

Lemma wrap64_small (z : Z) : in_int64 z -> wrap64 z = z.
Proof.
  unfold in_int64, MinInt64, MaxInt64, wrap64. intros H.
  rewrite Z.mod_small; lia.
Qed.

Lemma wrap64_minus (a b : Z) : wrap64 (wrap64 a - b) = wrap64 (a - b).
Proof.
  unfold wrap64.
  replace ((a + 2 ^ 63) mod 2 ^ 64 - 2 ^ 63 - b + 2 ^ 63)
    with ((a + 2 ^ 63) mod 2 ^ 64 + (- b)) by lia.
  rewrite Zplus_mod_idemp_l. f_equal. f_equal. lia.
Qed.



(** ** The claims about a round *)

(** C2. A round of the batcher takes the oldest request of the queue; when
    it takes its snapshot, the rest of the queue together with what has
    arrived by then has some length [k]; the round makes one remote [Tso]
    call, with [Count = k + 1]; it completes the first request and those of
    the snapshot and no other, and what it leaves in the queue was created
    after the snapshot. *)
Theorem batch_round_one_call (env : Env) (w : world) (first : nat)
    (rest : list nat) :
  inv [] w ->
  queue w = first :: rest ->
  let ws := exec (let* req := recv_tsoRequests in yield env anyone) w in
  exists (h : PDClient) (w' : world) (arrived : list nat),
    queue ws = rest ++ arrived /\
    (let* req := recv_tsoRequests in
     let* _ := yield env anyone in
     processTSORequests env req) w = Ret tt w' /\
    tso_calls (trace w')
    = tso_calls (trace w)
        ++ [(h, mkTsoRequest (clusterID (cli w))
                  (Z.of_nat (length (queue ws)) + 1))] /\
    completed (trace w') = completed (trace w) ++ first :: queue ws /\
    Forall (fun q => (nextp ws <= q)%nat) (queue w').
Proof.
  intros Hi Hq ws.
  destruct (recv_tsoRequests_spec w first rest Hi Hq)
    as (w0 & Hrecv & Hi0 & Hq0 & Ht0 & Hn0 & Hp0).
  destruct (yield_spec env anyone _ _ Hi0) as (ws' & Hy & His & Hrs).
  assert (Hws : ws = ws').
  { unfold ws, exec. by rewrite (bind_Ret _ _ _ _ _ Hrecv), Hy. }
  rewrite <- Hws in *. clear Hws ws'.
  destruct (rely_queue _ _ Hrs) as (arrived & Hqs & _). rewrite Hq0 in Hqs.
  destruct (processTSORequests_spec env first ws His)
    as (h & w' & _ & Hrun & _ & _ & Hleft & Htr).
  exists h, w', arrived. split; [done|]. split; [|split; [|split; [|done]]].
  - by rewrite (bind_Ret _ _ _ _ _ Hrecv), (bind_Ret _ _ _ _ _ Hy).
  - rewrite Htr, tso_calls_app, (rely_trace _ _ Hrs), Ht0.
    change (tso_calls (EvTso ?a ?b :: ?l)) with ((a, b) :: tso_calls l).
    rewrite tso_calls_batch_log.
    by rewrite (rely_clusterID _ _ Hrs), (progress_clusterID _ _ Hp0).
  - rewrite Htr, completed_app, (rely_trace _ _ Hrs), Ht0.
    change (completed (EvTso ?a ?b :: ?l)) with (completed l).
    by rewrite completed_batch_log.
Qed.




(** ** Shutdown *)

Lemma close_quit_spec (held : list nat) (w w' : world) (u : unit) :
  inv held w -> close_quit w = Ret u w' ->
  inv held w' /\ quit (cli w') = true /\ wg (cli w') = wg (cli w).
Proof.
  intros Hi. unfold close_quit. destruct (quit (cli w)); [done|].
  intros [= <- <-]. split; [|done].
  eapply inv_transfer; eauto; simpl; apply Hi.
Qed.


(** ** The recheck signal *)

Lemma leader_update_slot (w w' : world) :
  leader_update w w' -> slot_ok w -> slot_ok w'.
Proof. by intros (cs & l & n & -> & _). Qed.

Lemma env_step_slot (env : Env) (a : env_action) (w : world) :
  slot_ok w -> slot_ok (env_step env a w).
Proof.
  intros Hs. destruct a; simpl; unfold exec.
  - unfold GetTS_enqueue, bind, new_tsoRequest, send_tsoRequests. simpl.
    by destruct (send _ _).
  - unfold GetTS_receive, bind, recv_done.
    destruct (heap w !! req) as [r|]; [|done].
    destruct (recv (done r)) as [[e ch]|]; [|done].
    destruct e as [e|].
    + match goal with |- context [scheduleCheckLeader ?x] =>
        destruct (scheduleCheckLeader_returns x) as (w' & -> & _ & _ & Hs' & _)
      end.
      simpl. by apply Hs'.
    + unfold load. simpl. by destruct (_ !! req).
  - destruct (scheduleCheckLeader_returns w) as (w' & -> & _ & _ & Hs' & _).
    by apply Hs'.
  - unfold bind.
    destruct (recv_checkLeaderCh w) as [u w1| |] eqn:He; [|done|done].
    destruct (recv_checkLeaderCh_spec _ _ _ He) as (_ & _ & Hs1).
    destruct (updateLeader_returns env w1) as (e & w' & -> & Hu).
    eapply leader_update_slot; eauto.
  - destruct (updateLeader_returns env w) as (e & w' & -> & Hu).
    eapply leader_update_slot; eauto.
  - done.
Qed.

Lemma interfere_slot (env : Env) (acts : list env_action) (w : world) :
  slot_ok w -> slot_ok (interfere env acts w).
Proof.
  revert w. induction acts as [|a acts IH]; intros w Hs; [done|].
  simpl. by apply IH, env_step_slot.
Qed.

Lemma scheduleCheckLeader_pending (w : world) :
  cap (checkLeaderCh (cli w)) = 1%nat ->
  buf (checkLeaderCh (cli (exec scheduleCheckLeader w))) = [()] /\
  cap (checkLeaderCh (cli (exec scheduleCheckLeader w))) = 1%nat \/
  exec scheduleCheckLeader w = w /\
  (1 <= length (buf (checkLeaderCh (cli w))))%nat.
Proof.
  intros Hc. unfold exec, scheduleCheckLeader, send. rewrite Hc.
  case_decide as Hlen; [left | right; split; [done | lia]].
  destruct (buf (checkLeaderCh (cli w))) as [|x rest]; [done|].
  simpl in Hlen. lia.
Qed.

(** C7. [scheduleCheckLeader] always returns at once; when the slot is full
    it changes nothing; the slot has capacity one and never holds more than
    one signal, whatever the callers, the leader loop and [Close] do and
    however often [scheduleCheckLeader] is called; called any number of
    times, at least once, on an empty slot with nobody taking the signal, it
    leaves exactly one signal. *)
Theorem scheduleCheckLeader_coalesces (env : Env) (w : world) :
  (exists w', scheduleCheckLeader w = Ret tt w') /\
  (length (buf (checkLeaderCh (cli w))) = cap (checkLeaderCh (cli w)) ->
   scheduleCheckLeader w = Ret tt w) /\
  (slot_ok w ->
   (forall acts, slot_ok (interfere env acts w)) /\
   (forall n, slot_ok (Nat.iter n (exec scheduleCheckLeader) w))) /\
  (checkLeaderCh (cli w) = make 1 ->
   forall n, buf (checkLeaderCh
                    (cli (Nat.iter (S n) (exec scheduleCheckLeader) w))) = [()]).
Proof.
  split; [|split; [|split]].
  - destruct (scheduleCheckLeader_returns w) as (w' & H & _). by exists w'.
  - intros Hfull. unfold scheduleCheckLeader, send.
    rewrite decide_False by lia. done.
  - intros Hs. split; [intros acts; by apply interfere_slot|].
    induction n as [|n IH]; [done|]. simpl.
    destruct (scheduleCheckLeader_returns (Nat.iter n (exec scheduleCheckLeader) w))
      as (w' & Hrun & _ & _ & Hs' & _).
    unfold exec at 1. rewrite Hrun. by apply Hs'.
  - intros Hempty n.
    assert (Hone : buf (checkLeaderCh
                     (cli (Nat.iter (S n) (exec scheduleCheckLeader) w))) = [()]
                   /\ cap (checkLeaderCh
                     (cli (Nat.iter (S n) (exec scheduleCheckLeader) w))) = 1%nat);
      [|apply Hone].
    induction n as [|n [IHb IHc]].
    + simpl. unfold exec, scheduleCheckLeader, send. rewrite Hempty. done.
    + change (Nat.iter (S (S n)) ?f ?x) with (f (Nat.iter (S n) f x)).
      destruct (scheduleCheckLeader_pending _ IHc) as [H | [-> _]]; done.
Qed.

(** ** Store lookup *)

(** C8. When the remote call of [GetStore] succeeds: a store in state
    [Tombstone] gives neither a store nor an error; a response without a
    store gives the error "store field in rpc response not set". *)
Theorem GetStore_tombstone_and_missing (env : Env) (w : world) (storeID : Z)
    (h : PDClient) (resp : GetStoreResponse) :
  clients (cli w) !! leader (cli w) = Some h ->
  pd_GetStore env (now w) h storeID = inr resp ->
  (forall store, GetStore_field resp = Some store ->
                 GetState store = StoreState_Tombstone ->
                 GetStore env storeID w = Ret (None, None) (tick w)) /\
  (GetStore_field resp = None ->
   GetStore env storeID w
   = Ret (None, Some (New "[pd] store field in rpc response not set")) (tick w)).
Proof.
  intros Hh Hrpc. unfold GetStore, bind, leaderClient, call_GetStore.
  rewrite Hh, Hrpc. split.
  - intros store -> Hst. by rewrite Hst.
  - by intros ->.
Qed.

(** ** Cluster id *)

Lemma world_ext (w w' : world) :
  cli w = cli w' -> heap w = heap w' -> nextp w = nextp w' ->
  now w = now w' -> trace w = trace w' -> w = w'.
Proof. destruct w, w'. simpl. by intros -> -> -> -> ->. Qed.

Lemma ticks_0 (w : world) : ticks 0 w = w.
Proof. apply world_ext; simpl; try done; lia. Qed.

Lemma tick_ticks (n : nat) (w : world) : ticks n (tick w) = ticks (S n) w.
Proof. apply world_ext; simpl; try done; lia. Qed.


(** A pass in which no address answers asks each of them once. *)
Lemma initClusterID_pass_none (env : Env) (us : list string) :
  forall w : world,
    (forall j u, us !! j = Some u -> answers_id env (now w + j) u = None) ->
    initClusterID_pass env us w = Ret false (ticks (length us) w).
Proof.
  induction us as [|u us IH]; intros w Hnone.
  - simpl. unfold ret. by rewrite ticks_0.
  - cbn [initClusterID_pass length].
    pose proof (Hnone 0%nat u eq_refl) as H0. rewrite Nat.add_0_r in H0.
    unfold answers_id in H0.
    assert (Hrest : initClusterID_pass env us (tick w)
                    = Ret false (ticks (S (length us)) w)).
    { rewrite IH, tick_ticks; [done|]. intros j u' Hj. simpl.
      replace (S (now w + j)) with (now w + S j)%nat by lia.
      by apply Hnone. }
    destruct (apiutil_NewClient env (now w) u) as [?|client]; [done|].
    destruct (api_GetClusterID env (now w) client) as [?|id]; [done|done].
Qed.

(** A pass stops at the first address that answers. *)
Lemma initClusterID_pass_first (env : Env) (us : list string) :
  forall (w : world) (j : nat) (u : string) (id : Z),
    us !! j = Some u ->
    answers_id env (now w + j) u = Some id ->
    (forall j' u', (j' < j)%nat -> us !! j' = Some u' ->
                   answers_id env (now w + j') u' = None) ->
    initClusterID_pass env us w
    = Ret true (tick (with_cli (set_clusterID id) (ticks j w))).
Proof.
  induction us as [|u0 us IH]; intros w j u id Hj Hans Hnone; [done|].
  cbn [initClusterID_pass]. destruct j as [|j].
  - injection Hj as ->. rewrite Nat.add_0_r in Hans. unfold answers_id in Hans.
    destruct (apiutil_NewClient env (now w) u) as [?|client]; [done|].
    destruct (api_GetClusterID env (now w) client) as [?|id']; [done|].
    injection Hans as ->. by rewrite ticks_0.
  - pose proof (Hnone 0%nat u0 ltac:(lia) eq_refl) as H0.
    rewrite Nat.add_0_r in H0. unfold answers_id in H0.
    assert (Hrest : initClusterID_pass env us (tick w)
                    = Ret true (tick (with_cli (set_clusterID id) (ticks (S j) w)))).
    { rewrite (IH (tick w) j u id); [by rewrite tick_ticks|done|..].
      - simpl. by replace (S (now w + j)) with (now w + S j)%nat by lia.
      - intros j' u' Hlt Hj'. simpl.
        replace (S (now w + j')) with (now w + S j')%nat by lia.
        apply Hnone; [lia | done]. }
    destruct (apiutil_NewClient env (now w) u0) as [?|client]; [done|].
    destruct (api_GetClusterID env (now w) client) as [?|id']; [done|done].
Qed.

Lemma after_passes_S (i : nat) (w : world) :
  after_passes i (log (EvSleep 1) (ticks (length (urls (cli w))) w))
  = after_passes (S i) w.
Proof.
  apply world_ext; simpl; try done; try lia.
  by rewrite <- app_assoc.
Qed.

Lemma after_passes_0 (w : world) : after_passes 0 w = w.
Proof. apply world_ext; simpl; try done; try lia. by rewrite app_nil_r. Qed.

(** No address answers in any of the [n] passes: the error, after [n]
    sleeps. *)
Lemma initClusterID_retry_none (env : Env) (n : nat) :
  forall w : world,
    (forall i j u, (i < n)%nat -> urls (cli w) !! j = Some u ->
       answers_id env (now w + i * length (urls (cli w)) + j) u = None) ->
    initClusterID_retry env n w
    = Ret (Some (Trace errFailInitClusterID)) (after_passes n w).
Proof.
  induction n as [|n IH]; intros w Hnone.
  - simpl. unfold ret. by rewrite after_passes_0.
  - cbn [initClusterID_retry]. unfold bind at 1.
    rewrite initClusterID_pass_none.
    + unfold bind, modify. rewrite IH; [by rewrite after_passes_S|].
      intros i j u Hi Hj. simpl in *.
      replace (now w + length (urls (cli w)) + i * length (urls (cli w)) + j)%nat
        with (now w + S i * length (urls (cli w)) + j)%nat by lia.
      apply Hnone; [lia | done].
    + intros j u Hj. specialize (Hnone 0%nat j u ltac:(lia) Hj).
      by rewrite Nat.mul_0_l, Nat.add_0_r in Hnone.
Qed.

(** The first answer comes in pass [i] from address [j]: the id is adopted
    after [i] sleeps and nothing more is asked. *)
Lemma initClusterID_retry_first (env : Env) (i : nat) :
  forall (n : nat) (w : world) (j : nat) (u : string) (id : Z),
    (i < n)%nat ->
    urls (cli w) !! j = Some u ->
    answers_id env (now w + i * length (urls (cli w)) + j) u = Some id ->
    (forall i' j' u', (i' < i \/ i' = i /\ j' < j)%nat ->
       urls (cli w) !! j' = Some u' ->
       answers_id env (now w + i' * length (urls (cli w)) + j') u' = None) ->
    initClusterID_retry env n w
    = Ret None (tick (with_cli (set_clusterID id) (ticks j (after_passes i w)))).
Proof.
  induction i as [|i IH]; intros n w j u id Hlt Hj Hans Hnone;
    (destruct n as [|n]; [lia|]); cbn [initClusterID_retry]; unfold bind at 1.
  - rewrite (initClusterID_pass_first env _ w j u id Hj).
    + by rewrite after_passes_0.
    + by rewrite Nat.mul_0_l, Nat.add_0_r in Hans.
    + intros j' u' Hlt' Hj'. specialize (Hnone 0%nat j' u' ltac:(lia) Hj').
      by rewrite Nat.mul_0_l, Nat.add_0_r in Hnone.
  - rewrite initClusterID_pass_none.
    + unfold bind, modify.
      rewrite (IH n _ j u id); [by rewrite after_passes_S|lia|done|..].
      * simpl in *.
        by replace (now w + length (urls (cli w)) + i * length (urls (cli w)) + j)%nat
          with (now w + S i * length (urls (cli w)) + j)%nat by lia.
      * intros i' j' u' Hlt' Hj'. simpl in *.
        replace (now w + length (urls (cli w)) + i' * length (urls (cli w)) + j')%nat
          with (now w + S i' * length (urls (cli w)) + j')%nat by lia.
        apply Hnone; [lia | done].
    + intros j' u' Hj'. specialize (Hnone 0%nat j' u' ltac:(lia) Hj').
      by rewrite Nat.mul_0_l, Nat.add_0_r in Hnone.
Qed.

(** C6. [NewClient] asks the addresses for the cluster id in order, pass
    after pass, for at most [maxInitClusterRetries] passes, sleeping a
    second after each pass in which none answered.  The first answer is
    adopted and nothing more is asked; when the leader is then found,
    [NewClient] returns a client with that id.  When no address answers in
    any pass, [initClusterID] returns [errFailInitClusterID] after
    [maxInitClusterRetries] sleeps and [NewClient] returns the error and no
    client. *)
Theorem initClusterID_bootstrap (env : Env) (pdAddrs : list string) (w0 : world) :
  let w := with_cli (fun _ => new_client pdAddrs) w0 in
  let us := addrsToUrls pdAddrs in
  (forall (i j : nat) (u : string) (id : Z),
      (i < maxInitClusterRetries)%nat ->
      us !! j = Some u ->
      answers_id env (now w0 + i * length us + j) u = Some id ->
      (forall i' j' u', (i' < i \/ i' = i /\ j' < j)%nat ->
         us !! j' = Some u' ->
         answers_id env (now w0 + i' * length us + j') u' = None) ->
      exists w1,
        initClusterID env w = Ret None w1 /\
        clusterID (cli w1) = id /\
        trace w1 = trace w0 ++ replicate i (EvSleep 1) /\
        now w1 = S (now w0 + i * length us + j) /\
        forall w2, updateLeader env w1 = Ret None w2 ->
          exists c w3, NewClient env pdAddrs w0 = Ret (inr c) w3 /\
                       clusterID c = id) /\
  ((forall (i j : nat) (u : string),
      (i < maxInitClusterRetries)%nat ->
      us !! j = Some u ->
      answers_id env (now w0 + i * length us + j) u = None) ->
   exists w1,
     initClusterID env w = Ret (Some (Trace errFailInitClusterID)) w1 /\
     trace w1 = trace w0 ++ replicate maxInitClusterRetries (EvSleep 1) /\
     NewClient env pdAddrs w0
     = Ret (inl (Trace (Trace errFailInitClusterID))) w1).
Proof.
  intros w us. split.
  - intros i j u id Hi Hj Hans Hnone.
    eexists. split; [by apply (initClusterID_retry_first env i _ w j u id)|].
    split; [done|]. split; [done|]. split; [unfold w, us; simpl; lia|].
    intros w2 Hup. unfold NewClient, bind, modify. fold w.
    unfold initClusterID.
    rewrite (initClusterID_retry_first env i _ w j u id) by done.
    rewrite Hup. eexists _, _. split; [done|].
    destruct (updateLeader_returns env
                (tick (with_cli (set_clusterID id) (ticks j (after_passes i w)))))
      as (e & w2' & Hup' & (cs & l & n & Hw2 & _)).
    rewrite Hup in Hup'. injection Hup' as _ <-. by rewrite Hw2.
  - intros Hnone. eexists.
    split; [by apply initClusterID_retry_none|]. split; [done|].
    unfold NewClient, bind, modify. fold w. unfold initClusterID.
    by rewrite initClusterID_retry_none.
Qed.

(** ** Leader resolution *)




(** ** The concrete inputs *)

Lemma w_ready_inv : inv [] w_ready.
Proof.
  assert (Hq : queue w_ready = []) by (vm_compute; reflexivity).
  assert (Ht : completed (trace w_ready) = []) by (vm_compute; reflexivity).
  split; unfold pending; rewrite ?Hq, ?Ht; simpl.
  - vm_compute; reflexivity.
  - lia.
  - apply NoDup_nil_2.
  - intros p Hp. by apply elem_of_nil in Hp.
  - intros p Hp. by apply elem_of_nil in Hp.
  - apply NoDup_nil_2.
  - eexists. vm_compute. reflexivity.
  - split; [vm_compute; reflexivity | vm_compute; lia].
Qed.

Lemma recv_held (w : world) (p : nat) (rest : list nat) :
  inv [] w -> queue w = p :: rest -> inv [p] (exec recv_tsoRequests w).
Proof.
  intros Hi Hq.
  destruct (recv_tsoRequests_spec w p rest Hi Hq) as (w' & Hrecv & Hi' & _).
  unfold exec. by rewrite Hrecv.
Qed.

Lemma w_five_inv : inv [] w_five.
Proof. apply interfere_inv, w_ready_inv. Qed.


Lemma w_two_held_inv : inv [0%nat] w_two_held.
Proof.
  apply (recv_held w_two 0%nat [1%nat]); [apply interfere_inv, w_ready_inv|].
  vm_compute. reflexivity.
Qed.

(** ** The claims at concrete inputs *)



(** Callers arriving during the round stay in the queue. *)
Lemma batch_round_one_call_witness :
  let ws := exec (let* req := recv_tsoRequests in yield env_busy anyone) w_five in
  exists (h : PDClient) (w' : world) (arrived : list nat),
    queue ws = [1; 2; 3; 4]%nat ++ arrived /\
    (let* req := recv_tsoRequests in
     let* _ := yield env_busy anyone in
     processTSORequests env_busy req) w_five = Ret tt w' /\
    tso_calls (trace w')
    = tso_calls (trace w_five)
        ++ [(h, mkTsoRequest (clusterID (cli w_five))
                  (Z.of_nat (length (queue ws)) + 1))] /\
    completed (trace w') = completed (trace w_five) ++ 0%nat :: queue ws /\
    Forall (fun q => (nextp ws <= q)%nat) (queue w').
Proof.
  apply (batch_round_one_call env_busy w_five 0%nat [1; 2; 3; 4]%nat).
  - exact w_five_inv.
  - vm_compute. reflexivity.
Defined.






(** Three addresses, only the third answers 42; and none answers. *)
Lemma initClusterID_bootstrap_witness :
  (exists w1,
      initClusterID env_third
        (with_cli (fun _ => new_client ["pd1:2379"; "pd2:2379"; "pd3:2379"])
                  w_empty) = Ret None w1 /\
      clusterID (cli w1) = 42 /\
      trace w1 = trace w_empty ++ replicate 0 (EvSleep 1) /\
      now w1 = S (now w_empty
                  + 0 * length (addrsToUrls ["pd1:2379"; "pd2:2379"; "pd3:2379"])
                  + 2) /\
      forall w2, updateLeader env_third w1 = Ret None w2 ->
        exists c w3,
          NewClient env_third ["pd1:2379"; "pd2:2379"; "pd3:2379"] w_empty
          = Ret (inr c) w3 /\ clusterID c = 42) /\
  (exists w1,
      initClusterID env_dead
        (with_cli (fun _ => new_client ["pd1:2379"]) w_empty)
      = Ret (Some (Trace errFailInitClusterID)) w1 /\
      trace w1 = trace w_empty ++ replicate maxInitClusterRetries (EvSleep 1) /\
      NewClient env_dead ["pd1:2379"] w_empty
      = Ret (inl (Trace (Trace errFailInitClusterID))) w1).
Proof.
  split.
  - apply (proj1 (initClusterID_bootstrap env_third
                    ["pd1:2379"; "pd2:2379"; "pd3:2379"] w_empty)
             0%nat 2%nat "http://pd3:2379" 42).
    + unfold maxInitClusterRetries. lia.
    + reflexivity.
    + reflexivity.
    + intros i' j' u' [Hlt | [-> Hlt]] Hu; [lia|].
      destruct j' as [|[|j']]; [| |lia]; injection Hu as <-; reflexivity.
  - apply (proj2 (initClusterID_bootstrap env_dead ["pd1:2379"] w_empty)).
    intros i j u _ _. reflexivity.
Defined.

(** Five failures schedule one recheck. *)
Lemma scheduleCheckLeader_coalesces_witness :
  buf (checkLeaderCh (cli (Nat.iter 5 (exec scheduleCheckLeader) w_ready)))
  = [()] /\
  scheduleCheckLeader (exec scheduleCheckLeader w_ready)
  = Ret tt (exec scheduleCheckLeader w_ready).
Proof.
  split.
  - apply (proj2 (proj2 (proj2 (scheduleCheckLeader_coalesces env_ok w_ready)))).
    vm_compute. reflexivity.
  - apply (proj1 (proj2 (scheduleCheckLeader_coalesces env_ok
                           (exec scheduleCheckLeader w_ready)))).
    vm_compute. reflexivity.
Defined.

(** A tombstone, and a response without a store. *)
Lemma GetStore_tombstone_and_missing_witness :
  GetStore env_ok 5 w_ready = Ret (None, None) (tick w_ready) /\
  GetStore env_nostore 5 w_ready
  = Ret (None, Some (New "[pd] store field in rpc response not set"))
        (tick w_ready).
Proof.
  split.
  - apply (proj1 (GetStore_tombstone_and_missing env_ok w_ready 5 (NewPDClient 7)
                    (mkGetStoreResponse
                       (Some (mkStore 5 "tikv1:20160" StoreState_Tombstone)))
                    ltac:(vm_compute; reflexivity) ltac:(reflexivity))
             (mkStore 5 "tikv1:20160" StoreState_Tombstone));
      reflexivity.
  - apply (proj2 (GetStore_tombstone_and_missing env_nostore w_ready 5
                    (NewPDClient 7) (mkGetStoreResponse None)
                    ltac:(vm_compute; reflexivity) ltac:(reflexivity))).
    reflexivity.
Defined.

(** * Further properties *)

(** ** Partial correctness *)

Lemma hoare_ret {A : Type} (P : world -> Prop) (a : A) :
  hoare P (ret a) (fun _ => P).
Proof. intros w a' w' HP [= _ <-]. done. Qed.

Lemma hoare_bind {A B : Type} (P : world -> Prop) (Q : A -> world -> Prop)
    (R : B -> world -> Prop) (m : M A) (k : A -> M B) :
  hoare P m Q -> (forall a, hoare (Q a) (k a) R) -> hoare P (bind m k) R.
Proof.
  intros Hm Hk w b w' HP. unfold bind.
  destruct (m w) as [a w1| |] eqn:Hrun; [|done|done].
  intros Hrun'. eapply Hk; [|exact Hrun']. by eapply Hm.
Qed.

Lemma hoare_weaken {A : Type} (P P' : world -> Prop) (Q Q' : A -> world -> Prop)
    (m : M A) :
  hoare P' m Q' -> (forall w, P w -> P' w) -> (forall a w, Q' a w -> Q a w) ->
  hoare P m Q.
Proof. intros Hm HP HQ w a w' Hw Hrun. apply HQ. eapply Hm; eauto. Qed.

(** A computation that only looks at the world. *)
Lemma hoare_look {A : Type} (P : world -> Prop) (m : M A) :
  (forall w a w', m w = Ret a w' -> w' = w) -> hoare P m (fun _ => P).
Proof. intros Hm w a w' HP Hrun. by rewrite (Hm _ _ _ Hrun). Qed.

(** ** Steps that leave the core alone *)

Lemma same_core_refl (w : world) : same_core w w.
Proof. by split. Qed.

Lemma same_core_trans (w1 w2 w3 : world) :
  same_core w1 w2 -> same_core w2 w3 -> same_core w1 w3.
Proof.
  intros [] []. split; try congruence; [by etrans | tauto].
Qed.

Lemma same_core_tick (w : world) : same_core w (tick w).
Proof. by split. Qed.

Lemma kept_same_core (ord dlv : bool) (id : Z) (us : list string) (reg : gmap string PDClient)
    (closed : bool) (held : list nat) (w w' : world) :
  kept ord dlv id us reg closed held w ->
  same_core w w' ->
  is_Some (clients (cli w') !! leader (cli w')) ->
  slot_ok w' ->
  kept ord dlv id us reg closed held w'.
Proof.
  intros [] [] Hl Hs.
  assert (Hq : queue w' = queue w) by (unfold queue; congruence).
  split.
  - eapply inv_transfer; eauto; [lia | congruence].
  - intros Ho. specialize (kept_order0 Ho). unfold in_order in *. congruence.
  - intros Hd. specialize (kept_delivered0 Hd). unfold delivered in *.
    rewrite core_trace0, core_heap0. done.
  - congruence.
  - congruence.
  - by etrans.
  - auto.
Qed.

(** [switchLeader] only adds a handle, for an address that had none. *)
Lemma switchLeader_effect (env : Env) (addr : string) (w w' : world)
    (e : option error) :
  switchLeader env addr w = Ret e w' ->
  same_core w w' /\ checkLeaderCh (cli w') = checkLeaderCh (cli w) /\
  match e with
  | Some _ => cli w' = cli w
  | None => leader (cli w') = addr /\ is_Some (clients (cli w') !! addr)
  end.
Proof.
  unfold switchLeader.
  destruct (clients (cli w) !! addr) as [h|] eqn:Hh.
  - intros [= <- <-]. split; [by split|]. split; [done|]. simpl.
    split; [done|]. by rewrite Hh.
  - destruct (grpc_Dial env (now w) addr) as [err|cc]; intros [= <- <-].
    + split; [by split | done].
    + split; [split; simpl; try done; by apply insert_subseteq|].
      split; [done|]. simpl. split; [done|]. by rewrite lookup_insert_eq.
Qed.

(** [updateLeader] only adds handles; when it returns an error the client is
    as before; when the leader has changed, the new leader has a handle. *)
Lemma updateLeader_from_effect (env : Env) (us : list string) :
  forall (w w' : world) (e : option error),
    updateLeader_from env us w = Ret e w' ->
    same_core w w' /\ checkLeaderCh (cli w') = checkLeaderCh (cli w) /\
    (e <> None -> cli w' = cli w) /\
    (leader (cli w') <> leader (cli w) ->
     is_Some (clients (cli w') !! leader (cli w'))) /\
    (is_Some (clients (cli w) !! leader (cli w)) ->
     is_Some (clients (cli w') !! leader (cli w'))).
Proof.
  induction us as [|u us IH]; intros w w' e; simpl.
  - intros [= <- <-]. split; [apply same_core_refl | done].
  - assert (Hrest : updateLeader_from env us (tick w) = Ret e w' ->
      same_core w w' /\ checkLeaderCh (cli w') = checkLeaderCh (cli w) /\
      (e <> None -> cli w' = cli w) /\
      (leader (cli w') <> leader (cli w) ->
       is_Some (clients (cli w') !! leader (cli w'))) /\
      (is_Some (clients (cli w) !! leader (cli w)) ->
       is_Some (clients (cli w') !! leader (cli w')))).
    { intros Hrun. destruct (IH _ _ _ Hrun) as (Hc & Hs & He & Hl & Hk).
      split; [|done]. eapply same_core_trans; [apply same_core_tick | done]. }
    destruct (apiutil_NewClient env (now w) u) as [?|client]; [done|].
    destruct (api_GetLeader env (now w) client) as [?|addr]; [done|].
    case_decide as Hsame.
    + intros [= <- <-]. split; [apply same_core_tick | done].
    + destruct (switchLeader env addr (tick w)) as [e' w1| |] eqn:Hsw;
        [|done|done].
      destruct (switchLeader_effect _ _ _ _ _ Hsw) as (Hc & Hs & He).
      assert (Hc' : same_core w w1)
        by (eapply same_core_trans; [apply same_core_tick | done]).
      destruct e' as [err|]; intros [= <- <-].
      * split; [done|]. split; [done|]. simpl in He.
        split; [done|]. rewrite He. done.
      * destruct He as [Hl Hh]. split; [done|]. split; [done|].
        split; [done|]. rewrite Hl. done.
Qed.

Lemma kept_tick (ord dlv : bool) (id : Z) (us : list string) (reg : gmap string PDClient)
    (closed : bool) (held : list nat) (w : world) :
  kept ord dlv id us reg closed held w -> kept ord dlv id us reg closed held (tick w).
Proof.
  intros Hk. eapply kept_same_core; [done | apply same_core_tick | |];
    apply (kept_inv _ _ _ _ _ _ _ _ Hk).
Qed.

(** ** What every step keeps *)

Lemma done_completed (tr : list event) (p : nat) (ph lg : Z) (err : option error) :
  EvDone p ph lg err ∈ tr -> p ∈ completed tr.
Proof. intros H. apply list_elem_of_omap. by eexists. Qed.

Section Kept.

Variables (env : Env) (ord dlv : bool) (id : Z) (us : list string)
          (reg : gmap string PDClient) (closed : bool).

Local Abbreviation K := (kept ord dlv id us reg closed).

Lemma kept_core_inv (held : list nat) (w w' : world) :
  K held w -> same_core w w' -> inv held w' -> K held w'.
Proof.
  intros Hk Hc Hi. eapply kept_same_core; eauto; apply Hi.
Qed.

Lemma scheduleCheckLeader_core (w w' : world) (u : unit) :
  scheduleCheckLeader w = Ret u w' -> same_core w w'.
Proof.
  unfold scheduleCheckLeader. destruct (send _ _); intros [= _ <-]; by split.
Qed.

Lemma scheduleCheckLeader_kept (held : list nat) :
  hoare (K held) scheduleCheckLeader (fun _ => K held).
Proof.
  intros w u w' Hk Hrun.
  destruct (scheduleCheckLeader_returns w) as (w1 & Hrun1 & Hi & _).
  assert (w1 = w') as -> by congruence.
  eapply kept_core_inv; [done | by eapply scheduleCheckLeader_core |].
  apply Hi, Hk.
Qed.

Lemma recv_checkLeaderCh_kept (held : list nat) :
  hoare (K held) recv_checkLeaderCh (fun _ => K held).
Proof.
  intros w u w' Hk Hrun.
  destruct (recv_checkLeaderCh_spec _ _ _ Hrun) as (Hi & _).
  eapply kept_core_inv; [done | | apply Hi, Hk].
  revert Hrun. unfold recv_checkLeaderCh.
  destruct (recv _) as [[? ch]|]; [|done]. intros [= _ <-]. by split.
Qed.

Lemma updateLeader_kept (held : list nat) :
  hoare (K held) (updateLeader env) (fun _ => K held).
Proof.
  intros w e w' Hk Hrun.
  destruct (updateLeader_from_effect _ _ _ _ _ Hrun) as (Hc & _).
  destruct (updateLeader_returns env w) as (e1 & w1 & Hrun1 & Hu).
  rewrite Hrun in Hrun1. injection Hrun1 as <- <-.
  eapply kept_core_inv; [done | done |].
  by apply (inv_leader_update held w w' (kept_inv _ _ _ _ _ _ _ _ Hk)).
Qed.

Lemma GetTS_enqueue_kept (held : list nat) :
  hoare (K held) GetTS_enqueue (fun _ => K held).
Proof.
  intros w p w' Hk Hrun.
  destruct (GetTS_enqueue_spec held _ _ _ (kept_inv _ _ _ _ _ _ _ _ Hk) Hrun)
    as (Hi & Hr & -> & Hq).
  revert Hrun Hi Hq. unfold GetTS_enqueue, bind, new_tsoRequest, send_tsoRequests.
  simpl. destruct (send _ _) as [q|]; [|done]. unfold ret. intros [= <-] Hi Hq.
  destruct Hk. split; try done.
  - intros Ho. specialize (kept_order0 Ho).
    unfold in_order in *. rewrite Hq. cbn [nextp trace with_cli with_nextp].
    rewrite seq_S, <- kept_order0. cbn [Nat.add]. by rewrite !app_assoc.
  - intros Hdl p ph lg err He. specialize (kept_delivered0 Hdl). simpl in *.
    destruct (kept_delivered0 p ph lg err He) as (r & Hr' & Hrest).
    exists r. split; [|done]. rewrite lookup_insert_ne; [done|].
    apply done_completed in He.
    destruct (inv_done _ _ kept_inv0 p He) as [Hlt _]. lia.
Qed.

Lemma recv_done_kept (held : list nat) (q : nat) :
  hoare (K held) (recv_done q) (fun _ => K held).
Proof.
  intros w e w' Hk Hrun.
  destruct (recv_done_spec held _ _ _ _ (kept_inv _ _ _ _ _ _ _ _ Hk) Hrun)
    as (Hi & _).
  revert Hrun Hi. unfold recv_done.
  destruct (heap w !! q) as [r|] eqn:Hr; [|done].
  unfold recv. destruct (buf (done r)) as [|x rest] eqn:Hb; [done|].
  intros [= <- <-] Hi. destruct Hk. split; try done.
  intros Hdl p ph lg err He. specialize (kept_delivered0 Hdl). simpl in *.
  destruct (kept_delivered0 p ph lg err He) as (r' & Hr' & Hph & Hlg & Hcap & Hbuf).
  destruct (decide (p = q)) as [->|Hne].
  - rewrite Hr in Hr'. injection Hr' as <-.
    rewrite lookup_insert_eq. eexists. split; [done|]. simpl.
    split; [done|]. split; [done|]. split; [done|]. right.
    rewrite Hb in Hbuf. by destruct Hbuf as [[= _ ->] | ?].
  - rewrite lookup_insert_ne by done. by exists r'.
Qed.

Lemma GetTS_receive_kept (held : list nat) (q : nat) :
  hoare (K held) (GetTS_receive q) (fun _ => K held).
Proof.
  unfold GetTS_receive. eapply hoare_bind; [apply recv_done_kept|].
  intros [e|].
  - eapply hoare_bind; [apply scheduleCheckLeader_kept|].
    intros ?. apply hoare_ret.
  - eapply hoare_bind; [|intros r; apply hoare_ret].
    apply hoare_look. intros w a w'. unfold load.
    destruct (heap w !! q); [|done]. by intros [= _ <-].
Qed.

Lemma exec_kept {A : Type} (held : list nat) (m : M A) (w : world) :
  hoare (K held) m (fun _ => K held) -> K held w -> K held (exec m w).
Proof.
  intros Hm Hk. unfold exec. destruct (m w) as [a w'| |] eqn:Hrun; [|done|done].
  by eapply Hm.
Qed.

Lemma env_step_kept (held : list nat) (a : env_action) (w : world) :
  K held w -> K held (env_step env a w).
Proof.
  intros Hk. destruct a; simpl.
  - by apply exec_kept; [apply GetTS_enqueue_kept|].
  - by apply exec_kept; [apply GetTS_receive_kept|].
  - by apply exec_kept; [apply scheduleCheckLeader_kept|].
  - apply exec_kept; [|done].
    eapply hoare_bind; [apply recv_checkLeaderCh_kept|].
    intros ?. apply updateLeader_kept.
  - by apply exec_kept; [apply updateLeader_kept|].
  - eapply kept_core_inv; [done | by split |].
    by apply (env_step_inv env held ACloseQuit w), Hk.
Qed.

Lemma interfere_kept (held : list nat) (acts : list env_action) (w : world) :
  K held w -> K held (interfere env acts w).
Proof.
  revert w. induction acts as [|a acts IH]; intros w Hk; [done|].
  simpl. by apply IH, env_step_kept.
Qed.

Lemma yield_kept (allowed : env_action -> bool) (held : list nat) :
  hoare (K held) (yield env allowed) (fun _ => K held).
Proof.
  intros w u w' Hk. unfold yield. intros [= _ <-].
  by apply interfere_kept, kept_tick.
Qed.

Lemma recv_tsoRequests_kept :
  hoare (K []) recv_tsoRequests (fun p => K [p]).
Proof.
  intros w p w' Hk. unfold recv_tsoRequests, recv.
  destruct (buf (tsoRequests (cli w))) as [|x rest] eqn:Hb; [done|].
  intros [= <- <-].
  destruct (recv_tsoRequests_spec w x rest (kept_inv _ _ _ _ _ _ _ _ Hk) Hb)
    as (w1 & Hrun & Hi & _).
  unfold recv_tsoRequests, recv in Hrun. rewrite Hb in Hrun.
  injection Hrun as <-.
  destruct Hk. split; try done.
  intros Ho. specialize (kept_order0 Ho).
  unfold in_order, queue in *. simpl in *. by rewrite Hb in kept_order0.
Qed.

Lemma completed_snoc_done (tr : list event) (p : nat) (ph lg : Z)
    (err : option error) :
  completed (tr ++ [EvDone p ph lg err]) = completed tr ++ [p].
Proof. by rewrite completed_app. Qed.

Lemma send_done_kept (p : nat) (err : option error) :
  hoare (K [p]) (send_done p err) (fun _ => K []).
Proof.
  intros w [] w' Hk Hrun.
  destruct (send_done_spec w p err (kept_inv _ _ _ _ _ _ _ _ Hk))
    as (w1 & Hrun1 & Hi & _).
  assert (w1 = w') as -> by congruence. clear Hrun1.
  revert Hrun Hi. unfold send_done.
  destruct (heap w !! p) as [r|] eqn:Hr; [|done].
  destruct (send (done r) err) as [ch|] eqn:Hsend; [|done].
  intros [= <-] Hi.
  destruct (inv_fresh _ _ (kept_inv _ _ _ _ _ _ _ _ Hk) p) as (_ & r' & Hr' & Hd & _).
  { apply elem_of_cons. by left. }
  rewrite Hr in Hr'. injection Hr' as <-.
  rewrite Hd in Hsend. unfold send, make in Hsend. simpl in Hsend.
  injection Hsend as <-.
  destruct Hk. split; try done.
  - intros Ho. specialize (kept_order0 Ho). unfold in_order in *. simpl in *.
    rewrite completed_snoc_done, <- kept_order0. by rewrite <- app_assoc.
  - intros Hdl q ph lg e [He|He]%elem_of_app; specialize (kept_delivered0 Hdl);
      simpl.
    + destruct (kept_delivered0 q ph lg e He) as (rq & Hrq & Hrest).
      exists rq. split; [|done]. rewrite lookup_insert_ne; [done|].
      intros <-. apply done_completed in He.
      destruct (inv_done _ _ kept_inv0 p He) as [_ Hn].
      apply Hn, elem_of_cons. by left.
    + apply list_elem_of_singleton in He. injection He as -> -> -> ->.
      rewrite lookup_insert_eq. eexists. split; [done|]. simpl.
      split; [done|]. split; [done|]. split; [done|]. by left.
Qed.

Lemma store_fields_fresh (held : list nat) (p : nat) (ph lg : Z) (w : world) :
  inv held w -> p ∈ pending held w ->
  store_fields p ph lg w
  = Ret tt (with_heap (<[p := mkReq (make 1) ph lg]> (heap w)) w).
Proof.
  intros Hi Hp. unfold store_fields.
  destruct (inv_fresh _ _ Hi p Hp) as (_ & r & -> & -> & _). done.
Qed.

Lemma finishTSORequest_kept (p : nat) (ph lg : Z) (err : option error) :
  hoare (K [p]) (finishTSORequest p ph lg err) (fun _ => K []).
Proof.
  intros w [] w' Hk Hrun.
  destruct (finishTSORequest_spec w p ph lg err (kept_inv _ _ _ _ _ _ _ _ Hk))
    as (w1 & Hrun1 & Hi & _).
  assert (w1 = w') as -> by congruence. clear Hrun1.
  revert Hrun Hi. unfold finishTSORequest, bind.
  rewrite (store_fields_fresh [p] p ph lg w (kept_inv _ _ _ _ _ _ _ _ Hk))
    by (apply elem_of_cons; by left).
  unfold send_done. simpl. rewrite lookup_insert_eq. simpl.
  unfold send, make. simpl. intros [= <-] Hi.
  destruct Hk. split; try done.
  - intros Ho. specialize (kept_order0 Ho). unfold in_order in *. simpl in *.
    rewrite completed_snoc_done, <- kept_order0. by rewrite <- app_assoc.
  - intros Hdl q ph' lg' e [He|He]%elem_of_app; specialize (kept_delivered0 Hdl);
      simpl.
    + destruct (kept_delivered0 q ph' lg' e He) as (rq & Hrq & Hrest).
      exists rq. split; [|done]. rewrite !lookup_insert_ne; [done|..];
        intros <-; apply done_completed in He;
        destruct (inv_done _ _ kept_inv0 p He) as [_ Hn];
        apply Hn, elem_of_cons; by left.
    + apply list_elem_of_singleton in He. injection He as -> -> -> ->.
      rewrite lookup_insert_eq. eexists. split; [done|]. simpl.
      split; [done|]. split; [done|]. split; [done|]. by left.
Qed.

End Kept.

Section KeptLoops.

Variables (env : Env) (ord dlv : bool) (id : Z) (us : list string)
          (reg : gmap string PDClient) (closed : bool).

Local Abbreviation K := (kept ord dlv id us reg closed).

Lemma call_Tso_kept (held : list nat) (cl : option PDClient) (req : TsoRequest) :
  hoare (K held) (call_Tso env cl req) (fun _ => K held).
Proof.
  intros w r w' Hk. unfold call_Tso. destruct cl as [h|]; [|done].
  intros [= _ <-]. destruct Hk. split; try done.
  - by apply inv_call_Tso.
  - intros Ho. specialize (kept_order0 Ho). unfold in_order in *. simpl.
    rewrite completed_app. simpl. by rewrite app_nil_r.
  - intros Hdl p ph lg err [He|He]%elem_of_app; simpl; [by apply kept_delivered0|].
    apply list_elem_of_singleton in He. discriminate.
Qed.

Lemma failPending_kept (n : nat) (err : error) :
  hoare (K []) (failPending env n err) (fun _ => K []).
Proof.
  induction n as [|n IH]; [apply hoare_ret|]. cbn [failPending].
  eapply hoare_bind; [apply yield_kept|]. intros ?.
  eapply hoare_bind; [apply recv_tsoRequests_kept|]. intros req.
  eapply hoare_bind; [apply yield_kept|]. intros ?.
  eapply hoare_bind; [apply finishTSORequest_kept|]. intros ?. exact IH.
Qed.

Lemma assignPending_kept (n : nat) (phys : Z) :
  forall logi, hoare (K []) (assignPending env n phys logi) (fun _ => K []).
Proof.
  induction n as [|n IH]; intros logi; [apply hoare_ret|]. cbn [assignPending].
  eapply hoare_bind; [apply yield_kept|]. intros ?.
  eapply hoare_bind; [apply recv_tsoRequests_kept|]. intros req.
  eapply hoare_bind; [apply yield_kept|]. intros ?.
  eapply hoare_bind; [apply finishTSORequest_kept|]. intros ?. apply IH.
Qed.

Lemma failBatch_kept (first : nat) (n : nat) (err : error) :
  hoare (K [first]) (failBatch env first n err) (fun _ => K []).
Proof.
  unfold failBatch. eapply hoare_bind; [apply finishTSORequest_kept|].
  intros ?. apply failPending_kept.
Qed.

Lemma processTSORequests_kept (first : nat) :
  hoare (K [first]) (processTSORequests env first) (fun _ => K []).
Proof.
  unfold processTSORequests.
  eapply hoare_bind; [apply hoare_look; by intros ? ? ? [= _ <-]|]. intros n.
  eapply hoare_bind; [apply yield_kept|]. intros ?.
  eapply hoare_bind; [apply hoare_look; by intros ? ? ? [= _ <-]|]. intros cl.
  eapply hoare_bind; [apply hoare_look; by intros ? ? ? [= _ <-]|]. intros c.
  eapply hoare_bind; [apply call_Tso_kept|]. intros r.
  eapply hoare_bind; [apply yield_kept|]. intros ?.
  destruct r as [err|resp]; [apply failBatch_kept|].
  case_decide; [|apply failBatch_kept].
  eapply hoare_bind; [apply finishTSORequest_kept|].
  intros ?. apply assignPending_kept.
Qed.

Lemma select_kept (held : list nat) (ready : list bool) :
  hoare (K held) (select env ready) (fun _ => K held).
Proof.
  intros w c w' Hk Hrun.
  destruct (select_spec env ready w) as (c1 & w1 & Hrun1 & [-> | ->] & _);
    rewrite Hrun in Hrun1; injection Hrun1 as _ ->; [done | by apply kept_tick].
Qed.

Lemma wg_Done_kept (held : list nat) :
  hoare (K held) wg_Done (fun _ => K held).
Proof.
  intros w u w' Hk Hrun.
  pose proof (wg_Done_spec held w (kept_inv _ _ _ _ _ _ _ _ Hk)) as Hd.
  rewrite Hrun in Hd. destruct Hd as (Hi & _).
  eapply kept_core_inv; [done | | done].
  revert Hrun. unfold wg_Done. destruct (wg (cli w)); [done|].
  intros [= _ <-]. by split.
Qed.

Lemma tsLoop_kept (fuel : nat) :
  hoare (K []) (tsLoop env fuel) (fun _ => K []).
Proof.
  induction fuel as [|fuel IH]; [apply hoare_ret|]. cbn [tsLoop].
  eapply hoare_bind; [apply yield_kept|]. intros ?.
  eapply hoare_bind; [apply hoare_look; by intros ? ? ? [= _ <-]|]. intros w0.
  eapply hoare_bind; [apply select_kept|]. intros [[|i]|].
  - eapply hoare_bind; [apply recv_tsoRequests_kept|]. intros first.
    eapply hoare_bind; [apply yield_kept|]. intros ?.
    eapply hoare_bind; [apply processTSORequests_kept|]. intros ?. exact IH.
  - eapply hoare_bind; [apply wg_Done_kept|]. intros ?. apply hoare_ret.
  - exact IH.
Qed.

Lemma leaderLoop_kept (fuel : nat) :
  hoare (K []) (leaderLoop env fuel) (fun _ => K []).
Proof.
  induction fuel as [|fuel IH]; [apply hoare_ret|]. cbn [leaderLoop].
  eapply hoare_bind; [apply yield_kept|]. intros ?.
  eapply (hoare_bind _ (fun _ => K [])).
  { intros w1 b w1' Hk. unfold timer. intros [= _ <-]. by apply kept_tick. }
  intros fired.
  eapply hoare_bind; [apply hoare_look; by intros ? ? ? [= _ <-]|]. intros w0.
  eapply hoare_bind; [apply select_kept|]. intros [[|[|i]]|].
  - eapply hoare_bind; [apply recv_checkLeaderCh_kept|]. intros ?.
    eapply hoare_bind; [apply updateLeader_kept|]. intros ?. exact IH.
  - eapply hoare_bind; [apply updateLeader_kept|]. intros ?. exact IH.
  - eapply hoare_bind; [apply wg_Done_kept|]. intros ?. apply hoare_ret.
  - exact IH.
Qed.

Lemma Close_drain_kept (n : nat) :
  hoare (K []) (Close_drain env n) (fun _ => K []).
Proof.
  induction n as [|n IH]; [apply hoare_ret|]. cbn [Close_drain].
  eapply hoare_bind; [apply yield_kept|]. intros ?.
  eapply hoare_bind; [apply recv_tsoRequests_kept|]. intros req.
  eapply hoare_bind; [apply yield_kept|]. intros ?.
  eapply hoare_bind; [apply send_done_kept|]. intros ?. exact IH.
Qed.

End KeptLoops.

Lemma close_quit_kept (ord dlv : bool) (id : Z) (us : list string) (reg : gmap string PDClient)
    (closed : bool) (held : list nat) :
  hoare (kept ord dlv id us reg closed held) close_quit
        (fun _ => kept ord dlv id us reg true held).
Proof.
  intros w u w' Hk Hrun.
  destruct (close_quit_spec held _ _ _ (kept_inv _ _ _ _ _ _ _ _ Hk) Hrun)
    as (Hi & Hq & _).
  revert Hrun. unfold close_quit. destruct (quit (cli w)); [done|].
  intros [= _ <-]. destruct Hk. by split.
Qed.

Lemma Close_kept (env : Env) (ord dlv : bool) (id : Z) (us : list string)
    (reg : gmap string PDClient) (closed : bool) (fuel_ts fuel_leader : nat) :
  hoare (kept ord dlv id us reg closed []) (Close env fuel_ts fuel_leader)
        (fun _ => kept ord dlv id us reg true []).
Proof.
  unfold Close.
  eapply hoare_bind; [apply close_quit_kept|]. intros ?.
  eapply hoare_bind; [apply tsLoop_kept|]. intros ?.
  eapply hoare_bind; [apply leaderLoop_kept|]. intros ?.
  eapply hoare_bind.
  { apply hoare_look. intros w1 u1 w1'. unfold wg_Wait.
    destruct (wg (cli w1)); [|done]. by intros [= _ <-]. }
  intros ?.
  eapply hoare_bind; [apply hoare_look; by intros ? ? ? [= _ <-]|]. intros n.
  apply Close_drain_kept.
Qed.

(** Any world is kept with its own cluster id, addresses, handles and
    [quit]. *)
Lemma kept_here (ord dlv : bool) (held : list nat) (w : world) :
  inv held w ->
  (ord = true -> in_order held w) ->
  (dlv = true -> delivered w) ->
  kept ord dlv (clusterID (cli w)) (urls (cli w)) (clients (cli w))
       (quit (cli w)) held w.
Proof. intros Hi Ho Hd. by split. Qed.

Lemma delivered_start (w : world) : completed (trace w) = [] -> delivered w.
Proof.
  intros Ht p ph lg err He. apply done_completed in He. rewrite Ht in He.
  by apply elem_of_nil in He.
Qed.

(** ** Properties of the loops *)

(** X6. The cluster id and the address list never change once the client
    exists: whatever [tsLoop], [leaderLoop] and [Close] do, and whatever the
    other goroutines do meanwhile, [GetClusterID] afterwards returns the
    same id, without touching the world. *)
Theorem cluster_id_never_changes (env : Env) (w : world) :
  inv [] w ->
  (forall fuel st w', tsLoop env fuel w = Ret st w' ->
     GetClusterID w' = Ret (clusterID (cli w)) w' /\
     urls (cli w') = urls (cli w)) /\
  (forall fuel st w', leaderLoop env fuel w = Ret st w' ->
     GetClusterID w' = Ret (clusterID (cli w)) w' /\
     urls (cli w') = urls (cli w)) /\
  (forall fuel_ts fuel_leader w',
     Close env fuel_ts fuel_leader w = Ret tt w' ->
     GetClusterID w' = Ret (clusterID (cli w)) w' /\
     urls (cli w') = urls (cli w)).
Proof.
  intros Hi.
  assert (Hk := kept_here false false [] w Hi ltac:(done) ltac:(done)).
  split; [|split].
  - intros fuel st w' Hrun.
    destruct (tsLoop_kept env _ _ _ _ _ _ fuel w st w' Hk Hrun).
    unfold GetClusterID. by rewrite kept_clusterID0.
  - intros fuel st w' Hrun.
    destruct (leaderLoop_kept env _ _ _ _ _ _ fuel w st w' Hk Hrun).
    unfold GetClusterID. by rewrite kept_clusterID0.
  - intros f1 f2 w' Hrun.
    destruct (Close_kept env _ _ _ _ _ _ f1 f2 w tt w' Hk Hrun).
    unfold GetClusterID. by rewrite kept_clusterID0.
Qed.

Lemma cluster_id_never_changes_witness :
  GetClusterID w_served = Ret (clusterID (cli w_five)) w_served /\
  urls (cli w_served) = urls (cli w_five).
Proof.
  apply (proj1 (cluster_id_never_changes env_ok w_five w_five_inv)
           1%nat Running w_served).
  vm_compute. reflexivity.
Defined.

(** X7. A handle, once in the registry, stays there and is never replaced,
    through [tsLoop], [leaderLoop] and [Close]. *)
Theorem handles_are_retained (env : Env) (w : world) (addr : string)
    (h : PDClient) :
  inv [] w ->
  clients (cli w) !! addr = Some h ->
  (forall fuel st w', tsLoop env fuel w = Ret st w' ->
     clients (cli w') !! addr = Some h) /\
  (forall fuel st w', leaderLoop env fuel w = Ret st w' ->
     clients (cli w') !! addr = Some h) /\
  (forall fuel_ts fuel_leader w',
     Close env fuel_ts fuel_leader w = Ret tt w' ->
     clients (cli w') !! addr = Some h).
Proof.
  intros Hi Hh.
  assert (Hk := kept_here false false [] w Hi ltac:(done) ltac:(done)).
  split; [|split].
  - intros fuel st w' Hrun.
    destruct (tsLoop_kept env _ _ _ _ _ _ fuel w st w' Hk Hrun).
    by eapply lookup_weaken.
  - intros fuel st w' Hrun.
    destruct (leaderLoop_kept env _ _ _ _ _ _ fuel w st w' Hk Hrun).
    by eapply lookup_weaken.
  - intros f1 f2 w' Hrun.
    destruct (Close_kept env _ _ _ _ _ _ f1 f2 w tt w' Hk Hrun).
    by eapply lookup_weaken.
Qed.

Lemma handles_are_retained_witness :
  clients (cli w_closed) !! "http://pd1:2379" = Some (NewPDClient 7).
Proof.
  apply (proj2 (proj2 (handles_are_retained env_close w_five "http://pd1:2379"
                         (NewPDClient 7) w_five_inv
                         ltac:(vm_compute; reflexivity)))
           1%nat 1%nat w_closed).
  vm_compute. reflexivity.
Defined.

(** X8. [tsLoop] serves in the order of arrival and loses nothing: if the
    requests completed so far followed by the queue are the requests
    [0, 1, ..., nextp - 1] in this order, they still are after any number of
    rounds, whatever arrives meanwhile. *)
Theorem tsLoop_serves_in_order (env : Env) (fuel : nat) (w w' : world)
    (st : loop_status) :
  inv [] w ->
  completed (trace w) ++ queue w = seq 0 (nextp w) ->
  tsLoop env fuel w = Ret st w' ->
  completed (trace w') ++ queue w' = seq 0 (nextp w').
Proof.
  intros Hi Ho Hrun.
  assert (Hk := kept_here true false [] w Hi ltac:(done) ltac:(done)).
  destruct (tsLoop_kept env _ _ _ _ _ _ fuel w st w' Hk Hrun).
  by apply kept_order0.
Qed.

Lemma tsLoop_serves_in_order_witness :
  completed (trace w_served) ++ queue w_served = seq 0 (nextp w_served).
Proof.
  apply (tsLoop_serves_in_order env_ok 1 w_five w_served Running w_five_inv);
    vm_compute; reflexivity.
Defined.

(** X9. [Close] keeps the same order: when it returns, the requests
    completed, by the batcher or by [Close], followed by what is left in the
    queue are all requests ever queued, in order of arrival. *)
Theorem Close_serves_in_order (env : Env) (fuel_ts fuel_leader : nat)
    (w w' : world) :
  inv [] w ->
  completed (trace w) ++ queue w = seq 0 (nextp w) ->
  Close env fuel_ts fuel_leader w = Ret tt w' ->
  completed (trace w') ++ queue w' = seq 0 (nextp w').
Proof.
  intros Hi Ho Hrun.
  assert (Hk := kept_here true false [] w Hi ltac:(done) ltac:(done)).
  destruct (Close_kept env _ _ _ _ _ _ fuel_ts fuel_leader w tt w' Hk Hrun).
  by apply kept_order0.
Qed.

Lemma Close_serves_in_order_witness :
  completed (trace w_closed) ++ queue w_closed = seq 0 (nextp w_closed).
Proof.
  apply (Close_serves_in_order env_close 1 1 w_five w_closed w_five_inv);
    vm_compute; reflexivity.
Defined.

(** X13. [Close] is not idempotent: once a [Close] has returned, [quit] is
    closed, and a second [Close] panics on [close(c.quit)]. *)
Theorem Close_twice_panics (env : Env) (fuel_ts fuel_leader : nat)
    (w w' : world) :
  inv [] w ->
  Close env fuel_ts fuel_leader w = Ret tt w' ->
  quit (cli w') = true /\
  forall fuel_ts' fuel_leader', Close env fuel_ts' fuel_leader' w' = Panic.
Proof.
  intros Hi Hrun.
  assert (Hk := kept_here false false [] w Hi ltac:(done) ltac:(done)).
  destruct (Close_kept env _ _ _ _ _ _ fuel_ts fuel_leader w tt w' Hk Hrun).
  split; [auto|]. intros f1 f2. unfold Close, bind at 1, close_quit.
  by rewrite kept_closed0.
Qed.

Lemma Close_twice_panics_witness :
  quit (cli w_closed) = true /\
  forall fuel_ts' fuel_leader', Close env_close fuel_ts' fuel_leader' w_closed = Panic.
Proof.
  apply (Close_twice_panics env_close 1 1 w_five w_closed w_five_inv).
  vm_compute. reflexivity.
Defined.



(** ** The caller's side *)

Lemma scheduleCheckLeader_sets (w w' : world) (u : unit) :
  slot_ok w -> scheduleCheckLeader w = Ret u w' ->
  buf (checkLeaderCh (cli w')) = [()].
Proof.
  intros [Hcap Hlen]. unfold scheduleCheckLeader, send. rewrite Hcap.
  destruct (buf (checkLeaderCh (cli w))) as [|[] [|? ?]] eqn:Hb;
    simpl in *; try lia.
  - by intros [= _ <-].
  - by intros [= _ <-].
Qed.




(** X11. The queue is the only flow control: while it holds fewer than
    [maxMergeTSORequests] requests, [GetTS] queues its new request at the
    back, with an empty slot of capacity one; when it is full the send
    blocks, and goes through once the batcher has taken a request. *)
Theorem GetTS_enqueue_backpressure (held : list nat) (w : world) :
  inv held w ->
  ((length (queue w) < maxMergeTSORequests)%nat ->
   exists w', GetTS_enqueue w = Ret (nextp w) w' /\
              queue w' = queue w ++ [nextp w] /\
              heap w' !! nextp w = Some (mkReq (make 1) 0 0)) /\
  (length (queue w) = maxMergeTSORequests ->
   GetTS_enqueue w = Block /\
   exists first w1 p w2,
     recv_tsoRequests w = Ret first w1 /\ GetTS_enqueue w1 = Ret p w2).
Proof.
  intros Hi. pose proof (inv_cap _ _ Hi) as Hcap. split.
  - intros Hlt. unfold GetTS_enqueue, bind, new_tsoRequest, send_tsoRequests, send.
    simpl. rewrite decide_True by (unfold queue in Hlt; lia).
    eexists. split; [done|]. split; [done|]. simpl. by rewrite lookup_insert_eq.
  - intros Hfull. split.
    + unfold GetTS_enqueue, bind, new_tsoRequest, send_tsoRequests, send.
      simpl. rewrite decide_False by (unfold queue in Hfull; lia). done.
    + unfold queue in Hfull.
      destruct (buf (tsoRequests (cli w))) as [|first rest] eqn:Hb;
        [simpl in Hfull; by rewrite <- Hfull in Hcap|].
      exists first,
        (with_cli (set_tsoRequests (mkChan rest (cap (tsoRequests (cli w))))) w).
      unfold recv_tsoRequests, recv. rewrite Hb.
      unfold GetTS_enqueue, bind, new_tsoRequest, send_tsoRequests, send.
      simpl in *. rewrite decide_True by lia. by eexists _, _.
Qed.

Lemma w_full_inv : inv [] w_full.
Proof.
  assert (Hq : queue w_full = seq 0 maxMergeTSORequests) by reflexivity.
  split; unfold pending; rewrite ?Hq.
  - reflexivity.
  - rewrite length_seq. apply le_n.
  - apply NoDup_seq.
  - intros p Hp. rewrite app_nil_l in Hp. apply elem_of_seq in Hp.
    split; [unfold w_full; cbn [nextp]; lia|].
    exists (mkReq (make 1) 0 0).
    split; [|split; [reflexivity | split; reflexivity]].
    unfold w_full. cbn [heap]. apply elem_of_list_to_map_1.
    + rewrite <- list_fmap_compose.
      rewrite (list_fmap_ext _ id (seq 0 maxMergeTSORequests)) by reflexivity.
      rewrite list_fmap_id. apply NoDup_seq.
    + apply (list_elem_of_fmap_2 (fun p : nat => (p, mkReq (make 1) 0 0))).
      apply elem_of_seq. lia.
  - intros p Hp. apply elem_of_nil in Hp. destruct Hp.
  - apply NoDup_nil_2.
  - apply (inv_leader _ _ w_ready_inv).
  - apply (inv_slot _ _ w_ready_inv).
Qed.

Lemma GetTS_enqueue_backpressure_witness :
  (exists w', GetTS_enqueue w_five = Ret (nextp w_five) w' /\
              queue w' = queue w_five ++ [nextp w_five] /\
              heap w' !! nextp w_five = Some (mkReq (make 1) 0 0)) /\
  (GetTS_enqueue w_full = Block /\
   exists first w1 p w2,
     recv_tsoRequests w_full = Ret first w1 /\ GetTS_enqueue w1 = Ret p w2).
Proof.
  split.
  - apply (proj1 (GetTS_enqueue_backpressure [] w_five w_five_inv)).
    vm_compute. lia.
  - apply (proj2 (GetTS_enqueue_backpressure [] w_full w_full_inv)).
    apply length_seq.
Defined.

(** X12. A [GetTS] whose context is done while its request is still
    pending returns the context's error at once and does not take the
    request back: it stays where it is, to be served later.  With a context
    that is not done, the call waits. *)
Theorem GetTS_wait_cancelled (env : Env) (held : list nat) (w : world) (p : nat)
    (e : error) :
  inv held w ->
  p ∈ pending held w ->
  GetTS_wait env p (Some e) w = Ret (0, 0, Some (Trace e)) (tick w) /\
  pending held (tick w) = pending held w /\
  GetTS_wait env p None w = Block.
Proof.
  intros Hi Hp.
  destruct (inv_fresh _ _ Hi p Hp) as (_ & r & Hr & Hd & _).
  unfold GetTS_wait, bind, load. rewrite Hr, Hd. simpl.
  split; [|done]. unfold select. simpl. done.
Qed.

Lemma GetTS_wait_cancelled_witness :
  GetTS_wait env_ok 3%nat (Some (External "context deadline exceeded")) w_five
  = Ret (0, 0, Some (Trace (External "context deadline exceeded"))) (tick w_five) /\
  pending [] (tick w_five) = pending [] w_five /\
  GetTS_wait env_ok 3%nat None w_five = Block.
Proof.
  apply (GetTS_wait_cancelled env_ok [] w_five 3%nat
           (External "context deadline exceeded") w_five_inv).
  vm_compute. apply list_elem_of_In. simpl. tauto.
Defined.

(** ** Lookups *)

(** X14. A store lookup that fails returns no store and the error, traced,
    and leaves one leader check scheduled; one that finds a store that is
    not a tombstone returns that store and schedules nothing; on a client
    whose leader has no handle it panics. *)
Theorem GetStore_outcomes (env : Env) (w : world) (storeID : Z) :
  slot_ok w ->
  (forall h err,
      clients (cli w) !! leader (cli w) = Some h ->
      pd_GetStore env (now w) h storeID = inl err ->
      exists w', GetStore env storeID w = Ret (None, Some (Trace err)) w' /\
                 buf (checkLeaderCh (cli w')) = [()] /\
                 same_core w w') /\
  (forall h resp store,
      clients (cli w) !! leader (cli w) = Some h ->
      pd_GetStore env (now w) h storeID = inr resp ->
      GetStore_field resp = Some store ->
      GetState store <> StoreState_Tombstone ->
      GetStore env storeID w = Ret (Some store, None) (tick w)) /\
  (clients (cli w) !! leader (cli w) = None ->
   GetStore env storeID w = Panic).
Proof.
  intros Hs. split; [|split].
  - intros h err Hh Hrpc. unfold GetStore, bind, leaderClient, call_GetStore.
    rewrite Hh, Hrpc.
    destruct (scheduleCheckLeader_returns (tick w)) as (w' & Hrun & _).
    rewrite Hrun. exists w'. split; [done|]. split.
    + by eapply scheduleCheckLeader_sets; [|exact Hrun].
    + eapply same_core_trans; [apply same_core_tick|].
      by eapply scheduleCheckLeader_core.
  - intros h resp store Hh Hrpc Hst Hlive.
    unfold GetStore, bind, leaderClient, call_GetStore. rewrite Hh, Hrpc, Hst.
    by destruct (GetState store).
  - intros Hnone. unfold GetStore, bind, leaderClient, call_GetStore.
    by rewrite Hnone.
Qed.

Lemma GetStore_outcomes_witness :
  exists w', GetStore env_storedown 5 w_ready
             = Ret (None, Some (Trace (External "rpc error: code = Unavailable"))) w' /\
             buf (checkLeaderCh (cli w')) = [()] /\
             same_core w_ready w'.
Proof.
  apply (proj1 (GetStore_outcomes env_storedown w_ready 5
                  ltac:(vm_compute; split; [reflexivity | lia]))
           (NewPDClient 7)); vm_compute; reflexivity.
Defined.

(** X15. A region lookup passes on what the leader answers, also when no
    region is found, and then schedules nothing; when the call fails it
    returns the error, traced, and leaves one leader check scheduled; on a
    client whose leader has no handle it panics. *)
Theorem GetRegion_outcomes
    (rpc : nat -> PDClient -> string -> Result GetRegionResponse)
    (w : world) (key : string) :
  slot_ok w ->
  (forall h err,
      clients (cli w) !! leader (cli w) = Some h ->
      rpc (now w) h key = inl err ->
      exists w', GetRegion rpc key w = Ret (None, None, Some (Trace err)) w' /\
                 buf (checkLeaderCh (cli w')) = [()] /\
                 same_core w w') /\
  (forall h resp,
      clients (cli w) !! leader (cli w) = Some h ->
      rpc (now w) h key = inr resp ->
      GetRegion rpc key w
      = Ret (GetRegion_field resp, GetLeader_field resp, None) (tick w)) /\
  (clients (cli w) !! leader (cli w) = None ->
   GetRegion rpc key w = Panic).
Proof.
  intros Hs. split; [|split].
  - intros h err Hh Hrpc. unfold GetRegion, bind, leaderClient, call_GetRegion.
    rewrite Hh, Hrpc.
    destruct (scheduleCheckLeader_returns (tick w)) as (w' & Hrun & _).
    rewrite Hrun. exists w'. split; [done|]. split.
    + by eapply scheduleCheckLeader_sets; [|exact Hrun].
    + eapply same_core_trans; [apply same_core_tick|].
      by eapply scheduleCheckLeader_core.
  - intros h resp Hh Hrpc.
    unfold GetRegion, bind, leaderClient, call_GetRegion. by rewrite Hh, Hrpc.
  - intros Hnone. unfold GetRegion, bind, leaderClient, call_GetRegion.
    by rewrite Hnone.
Qed.

Lemma GetRegion_outcomes_witness :
  (exists w', GetRegion region_down "k" w_ready
              = Ret (None, None,
                     Some (Trace (External "rpc error: code = Unavailable"))) w' /\
              buf (checkLeaderCh (cli w')) = [()] /\
              same_core w_ready w') /\
  GetRegion region_none "k" w_ready = Ret (None, None, None) (tick w_ready).
Proof.
  split.
  - apply (proj1 (GetRegion_outcomes region_down w_ready "k"
                    ltac:(vm_compute; split; [reflexivity | lia]))
             (NewPDClient 7)); vm_compute; reflexivity.
  - apply (proj1 (proj2 (GetRegion_outcomes region_none w_ready "k"
                           ltac:(vm_compute; split; [reflexivity | lia])))
             (NewPDClient 7) (mkGetRegionResponse None None));
      vm_compute; reflexivity.
Defined.

(** ** Address normalization, again *)

Lemma scheme_added (a : string) : Contains ("http://" +:+ a) "://" = true.
Proof. apply Contains_spec. by exists "http", a. Qed.

(** X1. Every address [addrsToUrls] returns has a scheme, so normalizing
    twice is the same as normalizing once. *)
Theorem addrsToUrls_idempotent (addrs : list string) :
  Forall (occurs_in "://") (addrsToUrls addrs) /\
  addrsToUrls (addrsToUrls addrs) = addrsToUrls addrs.
Proof.
  induction addrs as [|a addrs [IHs IHi]]; [by split|].
  rewrite addrsToUrls_cons. split.
  - apply Forall_cons. split; [|done].
    destruct (Contains a "://") eqn:Hc; apply Contains_spec; [done|].
    apply scheme_added.
  - rewrite addrsToUrls_cons, IHi.
    destruct (Contains a "://") eqn:Hc; [by rewrite Hc|].
    by rewrite scheme_added.
Qed.

(** ** The timestamps of a round are distinct *)

Lemma wrap64_inj_near (a i j : Z) :
  0 <= i < 2 ^ 64 -> 0 <= j < 2 ^ 64 ->
  wrap64 (a - i) = wrap64 (a - j) -> i = j.
Proof.
  intros Hi Hj. unfold wrap64. intros Heq.
  assert (Hm : (a - i + 2 ^ 63) mod 2 ^ 64 = (a - j + 2 ^ 63) mod 2 ^ 64) by lia.
  clear Heq.
  pose proof (Z.div_mod (a - i + 2 ^ 63) (2 ^ 64) ltac:(lia)) as H1.
  pose proof (Z.div_mod (a - j + 2 ^ 63) (2 ^ 64) ltac:(lia)) as H2.
  rewrite Hm in H1.
  set (q1 := (a - i + 2 ^ 63) / 2 ^ 64) in *.
  set (q2 := (a - j + 2 ^ 63) / 2 ^ 64) in *.
  assert (Hd : j - i = 2 ^ 64 * (q1 - q2)) by lia.
  assert (q1 - q2 = 0) by nia. lia.
Qed.

Lemma stamps_app (tr1 tr2 : list event) :
  stamps (tr1 ++ tr2) = stamps tr1 ++ stamps tr2.
Proof. apply omap_app. Qed.

Lemma stamps_assigned (phys : Z) (qs : list nat) :
  forall logi : Z,
    stamps (assigned phys logi qs)
    = map (fun i : nat => (phys, wrap64 (logi - Z.of_nat i))) (seq 1 (length qs)).
Proof.
  induction qs as [|q qs IH]; intros logi; [done|].
  cbn [assigned length seq map].
  change (stamps (EvDone q phys ?x None :: ?l)) with ((phys, x) :: stamps l).
  f_equal. rewrite IH, <- (seq_shift (length qs) 1), map_map.
  apply map_ext. intros i. rewrite wrap64_minus. do 2 f_equal. lia.
Qed.

Lemma offsets_distinct (phys logi : Z) (n : nat) :
  Z.of_nat n <= 2 ^ 64 ->
  NoDup (map (fun i : nat => (phys, wrap64 (logi - Z.of_nat i))) (seq 0 n)).
Proof.
  intros Hn. apply (NoDup_fmap_2_strong _ (seq 0 n)); [|apply NoDup_seq].
  intros i j Hi%elem_of_seq Hj%elem_of_seq [= Heq].
  apply wrap64_inj_near in Heq; lia.
Qed.

(** X16. The timestamps a successful round hands out are pairwise distinct,
    also when the decrement wraps around: they are [physical] with the
    [k + 1] logical values [logicalMax - i] for [i = 0..k], computed in
    [int64]. *)
Theorem batch_stamps_distinct (env : Env) (first : nat) (w : world)
    (h : PDClient) (resp : TsoResponse) :
  let w1 := exec (yield env anyone) w in
  let k := length (queue w) in
  let req := mkTsoRequest (clusterID (cli w)) (Z.of_nat k + 1) in
  let phys := GetPhysical (GetTimestamp resp) in
  let logi := GetLogical (GetTimestamp resp) in
  let given := map (fun i : nat => (phys, wrap64 (logi - Z.of_nat i)))
                   (seq 0 (S k)) in
  inv [first] w ->
  clients (cli w1) !! leader (cli w1) = Some h ->
  pd_Tso env (now w1) h req = inr resp ->
  GetCount resp = Z.of_nat k + 1 ->
  in_int64 logi ->
  exists w',
    processTSORequests env first w = Ret tt w' /\
    stamps (trace w') = stamps (trace w) ++ given /\
    NoDup given.
Proof.
  intros w1 k req phys logi given Hi Hh Htso Hcount Hlogi.
  destruct (processTSORequests_spec env first w Hi)
    as (h' & w' & Hh' & Hrun & _ & _ & _ & Htr).
  fold w1 in Hh'. rewrite Hh in Hh'. injection Hh' as <-.
  fold w1 k req in Htr. rewrite Htso in Htr. unfold batch_log in Htr.
  fold k in Htr. rewrite decide_True in Htr by done. fold phys logi in Htr.
  exists w'. split; [done|]. split.
  - rewrite Htr, stamps_app.
    change (stamps (EvTso ?a ?b :: EvDone ?p ?ph ?lg None :: ?l))
      with ((ph, lg) :: stamps l).
    rewrite stamps_assigned. unfold given. cbn [seq map].
    rewrite Z.sub_0_r, (wrap64_small logi) by done. done.
  - apply offsets_distinct. pose proof (inv_len _ _ Hi) as Hlen.
    assert (Hmax : Z.of_nat maxMergeTSORequests = 10000) by reflexivity.
    fold k in Hlen. lia.
Qed.

Lemma batch_stamps_distinct_witness :
  exists w',
    processTSORequests env_wrap 0%nat w_two_held = Ret tt w' /\
    stamps (trace w')
    = stamps (trace w_two_held)
        ++ map (fun i : nat => (100, wrap64 (MinInt64 - Z.of_nat i)))
             (seq 0 (S (length (queue w_two_held)))) /\
    NoDup (map (fun i : nat => (100, wrap64 (MinInt64 - Z.of_nat i)))
             (seq 0 (S (length (queue w_two_held))))).
Proof.
  apply (batch_stamps_distinct env_wrap 0%nat w_two_held (NewPDClient 7)
           (mkTsoResponse 2 (Some (mkTimestamp 100 MinInt64)))).
  - exact w_two_held_inv.
  - vm_compute. reflexivity.
  - vm_compute. reflexivity.
  - vm_compute. reflexivity.
  - unfold in_int64, MinInt64, MaxInt64. simpl. lia.
Defined.

(** ** Construction *)

Lemma initClusterID_pass_effect (env : Env) (us : list string) :
  forall (w w' : world) (b : bool),
    initClusterID_pass env us w = Ret b w' ->
    exists idv n,
      w' = mkWorld (set_clusterID idv (cli w)) (heap w) (nextp w) n (trace w).
Proof.
  induction us as [|u us IH]; intros w w' b; simpl.
  - intros [= _ <-]. exists (clusterID (cli w)), (now w).
    by destruct w as [[] ? ? ? ?].
  - destruct (apiutil_NewClient env (now w) u) as [?|client];
      [intros Hrun; by destruct (IH _ _ _ Hrun) as (idv & n & ->); eexists _, _|].
    destruct (api_GetClusterID env (now w) client) as [?|idv];
      [intros Hrun; by destruct (IH _ _ _ Hrun) as (idv & n & ->); eexists _, _|].
    intros [= _ <-]. by eexists _, _.
Qed.

Lemma initClusterID_retry_effect (env : Env) (n : nat) :
  forall (w w' : world) (r : option error),
    initClusterID_retry env n w = Ret r w' ->
    exists idv t tr,
      w' = mkWorld (set_clusterID idv (cli w)) (heap w) (nextp w) t
                   (trace w ++ tr) /\
      completed tr = [].
Proof.
  induction n as [|n IH]; intros w w' r; simpl.
  - intros [= _ <-]. exists (clusterID (cli w)), (now w), [].
    split; [|done]. destruct w as [[] ? ? ? ?]. simpl. by rewrite app_nil_r.
  - unfold bind at 1.
    destruct (initClusterID_pass env (urls (cli w)) w) as [b w1| |] eqn:Hpass;
      [|done|done].
    destruct (initClusterID_pass_effect _ _ _ _ _ Hpass) as (idv & t & ->).
    destruct b.
    + intros [= _ <-]. exists idv, t, []. split; [|done]. simpl.
      by rewrite app_nil_r.
    + unfold bind, modify. intros Hrun.
      destruct (IH _ _ _ Hrun) as (idv' & t' & tr & -> & Htr).
      exists idv', t', (EvSleep 1 :: tr). split; [|done]. simpl.
      by rewrite <- app_assoc.
Qed.

(** Either [updateLeader] leaves the client as it is, or it has switched to
    another leader, which has a handle. *)
Lemma updateLeader_from_cases (env : Env) (us : list string) :
  forall (w w' : world) (e : option error),
    updateLeader_from env us w = Ret e w' ->
    cli w' = cli w \/
    (e = None /\ leader (cli w') <> leader (cli w) /\
     is_Some (clients (cli w') !! leader (cli w'))).
Proof.
  induction us as [|u us IH]; intros w w' e; simpl.
  - intros [= _ <-]. by left.
  - destruct (apiutil_NewClient env (now w) u) as [?|client];
      [intros Hrun; apply (IH _ _ _ Hrun)|].
    destruct (api_GetLeader env (now w) client) as [?|addr];
      [intros Hrun; apply (IH _ _ _ Hrun)|].
    case_decide as Hsame; [intros [= _ <-]; by left|].
    destruct (switchLeader env addr (tick w)) as [e' w1| |] eqn:Hsw; [|done|done].
    destruct (switchLeader_effect _ _ _ _ _ Hsw) as (_ & _ & He).
    destruct e' as [err|]; intros [= <- <-]; [by left|].
    destruct He as [Hl Hh]. right. rewrite Hl. done.
Qed.

(** What [NewClient] returns. *)
Lemma NewClient_effect (env : Env) (pdAddrs : list string) (w0 w : world)
    (c : client) :
  NewClient env pdAddrs w0 = Ret (inr c) w ->
  cli w = c /\ heap w = heap w0 /\ nextp w = nextp w0 /\
  completed (trace w) = completed (trace w0) /\
  exists idv cs l,
    c = mkClient (addrsToUrls pdAddrs) idv (make maxMergeTSORequests) cs l
                 (make 1) 2 false /\
    (cs = ∅ /\ l = EmptyString \/ l <> EmptyString /\ is_Some (cs !! l)).
Proof.
  unfold NewClient, bind at 1, modify. unfold bind at 1, initClusterID.
  destruct (initClusterID_retry env _ _) as [r w1| |] eqn:Hinit; [|done|done].
  destruct (initClusterID_retry_effect _ _ _ _ _ Hinit)
    as (idv & t & tr & Hw1 & Htr).
  destruct r as [e|]; [done|]. unfold bind at 1.
  destruct (updateLeader env w1) as [r w2| |] eqn:Hup; [|done|done].
  destruct (updateLeader_returns env w1) as (r' & w2' & Hup' & Hu).
  rewrite Hup in Hup'. injection Hup' as <- <-.
  pose proof (updateLeader_from_cases _ _ _ _ _ Hup) as Hcases.
  destruct Hu as (cs & l & n & -> & _).
  destruct r as [e|]; [done|]. unfold bind, modify, get, ret.
  intros [= <- <-]. subst w1. simpl in *.
  split; [done|]. split; [done|]. split; [done|].
  split; [by rewrite completed_app, Htr, app_nil_r|].
  exists idv, cs, l. split; [done|].
  destruct Hcases as [Hsame | (_ & Hne & Hh)].
  - left. by injection Hsame as -> ->.
  - right. done.
Qed.

(** X3. The client [NewClient] returns: the normalized addresses, an empty
    queue of capacity [maxMergeTSORequests], an empty signal slot of
    capacity one, two loops counted by the wait group, [quit] open; it has
    neither created a request nor completed one.  When its leader address
    is not empty the leader has a handle, and a client built in a world
    without requests satisfies the invariant, the order of service and the
    agreement of log and heap that the loops keep. *)
Theorem NewClient_returns_client (env : Env) (pdAddrs : list string)
    (w0 w : world) (c : client) :
  NewClient env pdAddrs w0 = Ret (inr c) w ->
  cli w = c /\
  urls c = addrsToUrls pdAddrs /\
  tsoRequests c = make maxMergeTSORequests /\
  checkLeaderCh c = make 1 /\
  wg c = 2%nat /\ quit c = false /\
  heap w = heap w0 /\ nextp w = nextp w0 /\
  completed (trace w) = completed (trace w0) /\
  (leader c <> EmptyString ->
   is_Some (clients c !! leader c) /\
   (nextp w0 = 0%nat -> completed (trace w0) = [] ->
    inv [] w /\ in_order [] w /\ delivered w)).
Proof.
  intros Hrun.
  destruct (NewClient_effect _ _ _ _ _ Hrun)
    as (Hc & Hh & Hn & Ht & idv & cs & l & -> & Hl).
  split; [done|]. do 5 (split; [done|]). do 3 (split; [done|]).
  simpl. intros Hne. destruct Hl as [[_ ->] | [_ Hh']]; [done|].
  split; [done|]. intros Hn0 Ht0. rewrite Hn0 in Hn. rewrite Ht0 in Ht.
  assert (Hq : queue w = []) by (unfold queue; by rewrite Hc).
  split; [|split].
  - split; unfold pending; rewrite ?Hq, ?Ht, ?Hc; simpl; try done.
    + lia.
    + apply NoDup_nil_2.
    + intros p Hp. by apply elem_of_nil in Hp.
    + intros p Hp. by apply elem_of_nil in Hp.
    + apply NoDup_nil_2.
    + split; [done | lia].
  - unfold in_order. by rewrite Hq, Ht, Hn.
  - by apply delivered_start.
Qed.

Lemma NewClient_returns_client_witness :
  cli w_ready = cli w_ready /\
  urls (cli w_ready) = addrsToUrls ["pd1:2379"] /\
  tsoRequests (cli w_ready) = make maxMergeTSORequests /\
  checkLeaderCh (cli w_ready) = make 1 /\
  wg (cli w_ready) = 2%nat /\ quit (cli w_ready) = false /\
  heap w_ready = heap w_empty /\ nextp w_ready = nextp w_empty /\
  completed (trace w_ready) = completed (trace w_empty) /\
  (leader (cli w_ready) <> EmptyString ->
   is_Some (clients (cli w_ready) !! leader (cli w_ready)) /\
   (nextp w_empty = 0%nat -> completed (trace w_empty) = [] ->
    inv [] w_ready /\ in_order [] w_ready /\ delivered w_ready)).
Proof.
  apply (NewClient_returns_client env_ok ["pd1:2379"] w_empty w_ready
           (cli w_ready)).
  vm_compute. reflexivity.
Defined.

(** X4. When the leader query answers with an empty address, [NewClient]
    returns a client whose leader is the empty address and whose registry
    is empty; a store lookup on that client panics on the nil handle. *)
Theorem NewClient_without_leader_handle (env : Env) (pdAddrs : list string)
    (w0 w : world) (c : client) :
  NewClient env pdAddrs w0 = Ret (inr c) w ->
  leader c = EmptyString ->
  clients c = ∅ /\ forall storeID, GetStore env storeID w = Panic.
Proof.
  intros Hrun Hl.
  destruct (NewClient_effect _ _ _ _ _ Hrun)
    as (Hc & _ & _ & _ & idv & cs & l & -> & Hcase).
  simpl in Hl. destruct Hcase as [[-> _] | [Hne _]]; [|done].
  split; [done|]. intros storeID.
  unfold GetStore, bind, leaderClient, call_GetStore. rewrite Hc. simpl.
  by rewrite lookup_empty.
Qed.

Lemma NewClient_without_leader_handle_witness :
  clients (cli (exec (NewClient env_noaddr ["pd1:2379"]) w_empty)) = ∅ /\
  forall storeID,
    GetStore env_noaddr storeID (exec (NewClient env_noaddr ["pd1:2379"]) w_empty)
    = Panic.
Proof.
  apply (NewClient_without_leader_handle env_noaddr ["pd1:2379"] w_empty
           (exec (NewClient env_noaddr ["pd1:2379"]) w_empty)
           (cli (exec (NewClient env_noaddr ["pd1:2379"]) w_empty)));
    vm_compute; reflexivity.
Defined.

(** X2. Without addresses there is nobody to ask: [NewClient] on the empty
    list makes no remote call, sleeps [maxInitClusterRetries] times and
    returns [errFailInitClusterID], whatever the outside is. *)
Theorem NewClient_without_addresses (env : Env) (w0 : world) :
  exists w1,
    NewClient env [] w0 = Ret (inl (Trace (Trace errFailInitClusterID))) w1 /\
    trace w1 = trace w0 ++ replicate maxInitClusterRetries (EvSleep 1) /\
    now w1 = now w0.
Proof.
  eexists. unfold NewClient, bind, modify, initClusterID.
  rewrite initClusterID_retry_none; [|by intros i j u _ Hj].
  split; [done|]. split; [done|]. simpl. lia.
Qed.

(** X5. [updateLeader] never removes or replaces a handle and touches
    nothing but the leader, the registry and the clock; when it returns an
    error the client is exactly as before; when the leader has changed, the
    new leader has a handle. *)
Theorem updateLeader_effect (env : Env) (w w' : world) (e : option error) :
  updateLeader env w = Ret e w' ->
  (forall addr h, clients (cli w) !! addr = Some h ->
                  clients (cli w') !! addr = Some h) /\
  same_core w w' /\
  checkLeaderCh (cli w') = checkLeaderCh (cli w) /\
  (e <> None -> cli w' = cli w) /\
  (leader (cli w') <> leader (cli w) ->
   is_Some (clients (cli w') !! leader (cli w'))).
Proof.
  intros Hrun.
  destruct (updateLeader_from_effect _ _ _ _ _ Hrun) as (Hc & Hs & He & Hl & _).
  split; [|done]. intros addr h Hh. eapply lookup_weaken; [exact Hh | apply Hc].
Qed.

Lemma updateLeader_effect_witness :
  (forall addr h, clients (cli w_fresh) !! addr = Some h ->
                  clients (cli (exec (updateLeader env_ok) w_fresh)) !! addr = Some h) /\
  same_core w_fresh (exec (updateLeader env_ok) w_fresh) /\
  checkLeaderCh (cli (exec (updateLeader env_ok) w_fresh))
  = checkLeaderCh (cli w_fresh) /\
  (@None error <> None -> cli (exec (updateLeader env_ok) w_fresh) = cli w_fresh) /\
  (leader (cli (exec (updateLeader env_ok) w_fresh)) <> leader (cli w_fresh) ->
   is_Some (clients (cli (exec (updateLeader env_ok) w_fresh))
              !! leader (cli (exec (updateLeader env_ok) w_fresh)))).
Proof.
  apply (updateLeader_effect env_ok w_fresh (exec (updateLeader env_ok) w_fresh) None).
  vm_compute. reflexivity.
Defined.
